(** * agouti: core/internal/selection

    A shallow embedding of [selection.go] and the properties of its
    selector chain, its cardinality policy and its error model.

    - Go slices are modelled with their backing arrays: a slice value is a
      pointer, a length and a capacity, and the arrays live in a store.
      [append] writes in place when the capacity allows it, as the language
      specifies.
    - The driver and the element handles are interfaces in the source.  Each
      method call on them is an explicit [call]; an operation is a finite
      tree of calls ([prog]), run against any [handler] over any world.
      The run yields the returned value, the final world and the sequence
      of calls that were issued.
    - A Go [error] is [option string]: [None] is [nil], [Some msg] is an
      error whose [Error()] text is [msg].  Multiple return values are
      pairs, so the value that accompanies an error is part of the model. *)

From Stdlib Require Import ZArith Lia Ascii.
From stdpp Require Import base tactics option list gmap strings pretty.

Open Scope string_scope.
Open Scope nat_scope.

(** ** Strings *)

(** [strings.Join]: nothing for no element, the element itself for one,
    otherwise the first element followed by each other one behind [sep]. *)
Fixpoint Join_tail (elems : list string) (sep : string) : string :=
  match elems with
  | [] => EmptyString
  | e :: rest => sep +:+ e +:+ Join_tail rest sep
  end.

Definition Join (elems : list string) (sep : string) : string :=
  match elems with
  | [] => EmptyString
  | e :: rest => e +:+ Join_tail rest sep
  end.

(** [contains path msg]: [path] occurs in [msg] as a contiguous run. *)
Definition contains (path msg : string) : Prop :=
  ∃ before after : string, msg = before +:+ path +:+ after.

(** ** Slices of strings and their backing arrays *)

Definition loc := positive.

(** A slice header.  Every slice of this package starts at the first cell
    of its array (none is ever resliced), so no offset is kept. *)
Record slice := Slice { ptr : loc; len : nat; cap : nat }.

(** The store of backing arrays; an array has as many cells as the
    capacity of the slices that point to it. *)
Abbreviation mem := (gmap loc (list string)).

(** The elements a slice shows: the first [len] cells of its array. *)
Definition elems_of (m : mem) (sl : slice) : list string :=
  take (len sl) (m !!! ptr sl).

(** A slice of the store: its array is allocated and holds the cells that
    the length and the capacity speak of. *)
Definition wf_slice (m : mem) (sl : slice) : Prop :=
  ∃ arr, m !! ptr sl = Some arr ∧ len sl ≤ length arr ∧ cap sl ≤ length arr.

(** The composite literal [[]string{x}]: a new array of one cell. *)
Definition literal1 (m : mem) (x : string) : mem * slice :=
  let l := fresh (dom m) in
  (<[l := [x]]> m, Slice l 1 1).

Section Append.

(** The capacity of the array that [append] allocates when the old one is
    full, from the old capacity and the length that is needed.  The
    language leaves it to the runtime and only promises that the new
    array is large enough. *)
Variable growcap : nat → nat → nat.

(** The built-in [append(s, x)] with one value: when the capacity
    suffices the value is written into the array of [s] behind its last
    element and the result shares that array; otherwise a new array
    receives the elements of [s] and the value. *)
Definition append (m : mem) (s : slice) (x : string) : mem * slice :=
  if decide (len s + 1 ≤ cap s) then
    (<[ptr s := <[len s := x]> (m !!! ptr s)]> m,
     Slice (ptr s) (len s + 1) (cap s))
  else
    let newcap := growcap (cap s) (len s + 1) in
    let l := fresh (dom m) in
    (<[l := (elems_of m s ++ x :: replicate (newcap - (len s + 1)) EmptyString)%list]> m,
     Slice l (len s + 1) newcap).

End Append.

(** The growth of the gc runtime ([growslice]) for slices of fewer than
    256 elements: the needed length when it exceeds twice the old
    capacity, else twice the old capacity.  For strings the allocator's
    size classes leave capacities 2 and 4 as they are. *)
Definition go_growcap (oldcap needed : nat) : nat :=
  if decide (oldcap + oldcap < needed) then needed else oldcap + oldcap.

(** ** The selection *)

(** The driver a selection refers to; selections built from one another
    share it. *)
Definition driver := nat.

(** [type selection struct { driver driver; selectors []string }].  The
    fields of the struct are never assigned after construction, so the
    pointer [&selection{...}] is modelled by the struct value; the slice
    inside it still points into the shared store. *)
Record selection := Selection { sel_driver : driver; selectors : slice }.

Section Chain.

Variable growcap : nat → nat → nat.

Definition New (m : mem) (d : driver) (selector : string) : mem * selection :=
  let '(m', sl) := literal1 m selector in
  (m', Selection d sl).

Definition Find (m : mem) (s : selection) (selector : string) : mem * selection :=
  let '(m', sl) := append growcap m (selectors s) selector in
  (m', Selection (sel_driver s) sl).

(** [Find] chained over a list of fragments, left to right. *)
Fixpoint Find_all (m : mem) (s : selection) (fragments : list string)
  : mem * selection :=
  match fragments with
  | [] => (m, s)
  | f :: rest => let '(m', s') := Find m s f in Find_all m' s' rest
  end.

End Chain.

Definition Selector (m : mem) (s : selection) : string :=
  Join (elems_of m (selectors s)) " ".

(** ** The driver and element boundaries *)

(** A Go [error]: [None] is [nil]; [Some msg] is an error whose [Error()]
    text, the one the verb [%s] prints, is [msg]. *)
Definition error := option string.

(** [fmt.Errorf] always returns an error; the formatted text is written
    out at each use. *)
Definition Errorf (msg : string) : error := Some msg.

(** The verb [%d] on an [int]. *)
Definition fmt_d (n : Z) : string := pretty n.

(** The character that opens and closes a Go string literal. *)
Definition dquote : string := String "034"%char EmptyString.

(** A [webdriver.Element] handed out by the driver.  The interface value
    [nil] is [None] of [option Element]. *)
Record Element := Handle { handle_id : nat }.

(** [webdriver.Point]; this package only ever passes [nil] for it. *)
Record Point := XY { point_x : Z; point_y : Z }.

(** The method calls that leave the package: the three methods of the
    [driver] interface and the methods of [webdriver.Element] that the
    operations use. *)
Inductive call :=
| GetElements (d : driver) (selector : string)
| DriverDoubleClick (d : driver)
| MoveTo (d : driver) (element : option Element) (point : option Point)
| EClick (e : Element)
| EClear (e : Element)
| EValue (e : Element) (text : string)
| ESubmit (e : Element)
| EGetText (e : Element)
| EGetAttribute (e : Element) (attribute : string)
| EGetCSS (e : Element) (property : string)
| EIsSelected (e : Element)
| EIsDisplayed (e : Element).

(** What each method returns. *)
Definition resp (c : call) : Type :=
  match c with
  | GetElements _ _ => list Element * error
  | DriverDoubleClick _ | MoveTo _ _ _ => error
  | EClick _ | EClear _ | EValue _ _ | ESubmit _ => error
  | EGetText _ | EGetAttribute _ _ | EGetCSS _ _ => string * error
  | EIsSelected _ | EIsDisplayed _ => bool * error
  end.

(** An operation: it returns, or it panics (a method called on a nil
    interface, an index out of range), or it issues a call and goes on
    with the answer. *)
Inductive prog (A : Type) : Type :=
| Ret (a : A)
| Panic
| Call (c : call) (k : resp c → prog A).
Arguments Ret {A} a.
Arguments Panic {A}.
Arguments Call {A} c k.

Fixpoint bind {A B} (p : prog A) (f : A → prog B) : prog B :=
  match p with
  | Ret a => f a
  | Panic => Panic
  | Call c k => Call c (λ r, bind (k r) f)
  end.

#[export] Instance prog_ret : MRet prog := @Ret.
#[export] Instance prog_bind : MBind prog := λ A B f p, bind p f.

Definition call_ (c : call) : prog (resp c) := Call c Ret.

(** A method call whose receiver is an interface value that may be nil. *)
Definition recv {A} (element : option Element) (k : Element → prog A) : prog A :=
  match element with
  | Some e => k e
  | None => Panic
  end.

(** *** Running an operation *)

Inductive outcome (A : Type) : Type :=
| Done (a : A)
| Panicked.
Arguments Done {A} a.
Arguments Panicked {A}.

(** The collaborators: any answer to any call, from any world. *)
Definition handler (W : Type) : Type := ∀ c : call, W → resp c * W.

(** The outcome, the world afterwards and the calls issued, in order. *)
Fixpoint run {W A} (h : handler W) (p : prog A) (w : W)
  : outcome A * W * list call :=
  match p with
  | Ret a => (Done a, w, [])
  | Panic => (Panicked, w, [])
  | Call c k =>
      let '(r, w1) := h c w in
      let '(o, w2, tr) := run h (k r) w1 in
      (o, w2, c :: tr)
  end.

Definition is_click (c : call) : bool :=
  match c with EClick _ => true | _ => false end.

Definition is_value (c : call) : bool :=
  match c with EValue _ _ => true | _ => false end.

Definition is_double_click (c : call) : bool :=
  match c with DriverDoubleClick _ => true | _ => false end.

(** How many calls of a kind a run issued. *)
Definition count (kind : call → bool) (tr : list call) : nat :=
  length (filter (λ c, kind c = true) tr).

(** ** The operations of a selection *)

Section Operations.

(** The store is fixed while an operation runs: only [New] and [Find]
    write to it. *)
Variable m : mem.
Variable s : selection.

Definition getSingleElement : prog (option Element * error) :=
  '(elements, err) ← call_ (GetElements (sel_driver s) (Selector m s));
  match err with
  | Some _ => mret (None, err)
  | None =>
      if decide (1 < length elements) then
        mret (None, Errorf ("mutiple elements (" +:+
                            fmt_d (Z.of_nat (length elements)) +:+
                            ") were selected"))
      else if decide (length elements = 0) then
        mret (None, Errorf "no element found")
      else
        match elements !! 0 with
        | Some e => mret (Some e, None)
        | None => Panic
        end
  end.

Definition Count : prog (Z * error) :=
  '(elements, err) ← call_ (GetElements (sel_driver s) (Selector m s));
  match err with
  | Some cause =>
      mret (0%Z, Errorf ("failed to retrieve elements for selector '" +:+
                         Selector m s +:+ "': " +:+ cause))
  | None => mret (Z.of_nat (length elements), None)
  end.

Definition Click : prog error :=
  '(element, err) ← getSingleElement;
  match err with
  | Some cause =>
      mret (Errorf ("failed to retrieve element with selector '" +:+
                    Selector m s +:+ "': " +:+ cause))
  | None =>
      err ← recv element (λ e, call_ (EClick e));
      match err with
      | Some cause =>
          mret (Errorf ("failed to click on selector '" +:+
                        Selector m s +:+ "': " +:+ cause))
      | None => mret None
      end
  end.

Definition DoubleClick : prog error :=
  '(element, err) ← getSingleElement;
  match err with
  | Some cause =>
      mret (Errorf ("failed to retrieve element with selector '" +:+
                    Selector m s +:+ "': " +:+ cause))
  | None =>
      err ← call_ (MoveTo (sel_driver s) element None);
      match err with
      | Some cause =>
          mret (Errorf ("failed to move mouse to selector '" +:+
                        Selector m s +:+ "': " +:+ cause))
      | None =>
          err ← call_ (DriverDoubleClick (sel_driver s));
          match err with
          | Some cause =>
              mret (Errorf ("failed to double-click on selector '" +:+
                            Selector m s +:+ "': " +:+ cause))
          | None => mret None
          end
      end
  end.

Definition Fill (text : string) : prog error :=
  '(element, err) ← getSingleElement;
  match err with
  | Some cause =>
      mret (Errorf ("failed to retrieve element with selector '" +:+
                    Selector m s +:+ "': " +:+ cause))
  | None =>
      err ← recv element (λ e, call_ (EClear e));
      match err with
      | Some cause =>
          mret (Errorf ("failed to clear selector '" +:+
                        Selector m s +:+ "': " +:+ cause))
      | None =>
          err ← recv element (λ e, call_ (EValue e text));
          match err with
          | Some cause =>
              mret (Errorf ("failed to enter text into selector '" +:+
                            Selector m s +:+ "': " +:+ cause))
          | None => mret None
          end
      end
  end.

Definition setChecked (checked : bool) : prog error :=
  '(element, err) ← getSingleElement;
  match err with
  | Some cause =>
      mret (Errorf ("failed to retrieve element with selector '" +:+
                    Selector m s +:+ "': " +:+ cause))
  | None =>
      '(elementType, err) ← recv element (λ e, call_ (EGetAttribute e "type"));
      match err with
      | Some cause =>
          mret (Errorf ("failed to retrieve type of selector '" +:+
                        Selector m s +:+ "': " +:+ cause))
      | None =>
          if decide (elementType ≠ "checkbox") then
            mret (Errorf ("selector '" +:+ Selector m s +:+
                          "' does not refer to a checkbox"))
          else
            '(selected, err) ← recv element (λ e, call_ (EIsSelected e));
            match err with
            | Some cause =>
                mret (Errorf ("failed to retrieve state of selector '" +:+
                              Selector m s +:+ "': " +:+ cause))
            | None =>
                if decide (selected ≠ checked) then
                  err ← recv element (λ e, call_ (EClick e));
                  match err with
                  | Some cause =>
                      mret (Errorf ("failed to click selector '" +:+
                                    Selector m s +:+ "': " +:+ cause))
                  | None => mret None
                  end
                else mret None
            end
      end
  end.

Definition Check : prog error := setChecked true.

Definition Uncheck : prog error := setChecked false.

Definition Text : prog (string * error) :=
  '(element, err) ← getSingleElement;
  match err with
  | Some cause =>
      mret (EmptyString,
            Errorf ("failed to retrieve element with selector '" +:+
                    Selector m s +:+ "': " +:+ cause))
  | None =>
      '(text, err) ← recv element (λ e, call_ (EGetText e));
      match err with
      | Some cause =>
          mret (EmptyString,
                Errorf ("failed to retrieve text for selector '" +:+
                        Selector m s +:+ "': " +:+ cause))
      | None => mret (text, None)
      end
  end.

Definition Attribute (attribute : string) : prog (string * error) :=
  '(element, err) ← getSingleElement;
  match err with
  | Some cause =>
      mret (EmptyString,
            Errorf ("failed to retrieve element with selector '" +:+
                    Selector m s +:+ "': " +:+ cause))
  | None =>
      '(value, err) ← recv element (λ e, call_ (EGetAttribute e attribute));
      match err with
      | Some cause =>
          mret (EmptyString,
                Errorf ("failed to retrieve attribute value for selector '" +:+
                        Selector m s +:+ "': " +:+ cause))
      | None => mret (value, None)
      end
  end.

Definition CSS (property : string) : prog (string * error) :=
  '(element, err) ← getSingleElement;
  match err with
  | Some cause =>
      mret (EmptyString,
            Errorf ("failed to retrieve element with selector '" +:+
                    Selector m s +:+ "': " +:+ cause))
  | None =>
      '(value, err) ← recv element (λ e, call_ (EGetCSS e property));
      match err with
      | Some cause =>
          mret (EmptyString,
                Errorf ("failed to retrieve CSS property for selector '" +:+
                        Selector m s +:+ "': " +:+ cause))
      | None => mret (value, None)
      end
  end.

Definition Selected : prog (bool * error) :=
  '(element, err) ← getSingleElement;
  match err with
  | Some cause =>
      mret (false,
            Errorf ("failed to retrieve element with selector '" +:+
                    Selector m s +:+ "': " +:+ cause))
  | None =>
      '(selected, err) ← recv element (λ e, call_ (EIsSelected e));
      match err with
      | Some cause =>
          mret (false,
                Errorf ("failed to determine whether selector '" +:+
                        Selector m s +:+ "' is selected: " +:+ cause))
      | None => mret (selected, None)
      end
  end.

Definition Visible : prog (bool * error) :=
  '(element, err) ← getSingleElement;
  match err with
  | Some cause =>
      mret (false,
            Errorf ("failed to retrieve element with selector '" +:+
                    Selector m s +:+ "': " +:+ cause))
  | None =>
      '(visible, err) ← recv element (λ e, call_ (EIsDisplayed e));
      match err with
      | Some cause =>
          mret (false,
                Errorf ("failed to determine whether selector '" +:+
                        Selector m s +:+ "' is visible: " +:+ cause))
      | None => mret (visible, None)
      end
  end.

(** The body of [for _, element := range elements] in [Select], with the
    statement behind the loop as the case of no element left. *)
Fixpoint Select_range (text : string) (elements : list Element) : prog error :=
  match elements with
  | [] =>
      mret (Errorf ("no options with text " +:+ dquote +:+ text +:+ dquote +:+
                    " found for selector '" +:+ Selector m s +:+ "'"))
  | element :: rest =>
      '(elementText, err) ← call_ (EGetText element);
      match err with
      | Some cause =>
          mret (Errorf ("failed to retrieve option text for selector '" +:+
                        Selector m s +:+ "': " +:+ cause))
      | None =>
          if decide (elementText = text) then
            err ← call_ (EClick element);
            match err with
            | Some cause =>
                mret (Errorf ("failed to click on option with text " +:+
                              dquote +:+ elementText +:+ dquote +:+
                              " for selector '" +:+ Selector m s +:+
                              "': " +:+ cause))
            | None => mret None
            end
          else Select_range text rest
      end
  end.

Definition Select (text : string) : prog error :=
  '(elements, err) ← call_ (GetElements (sel_driver s) (Selector m s +:+ " option"));
  match err with
  | Some cause =>
      mret (Errorf ("failed to retrieve options for selector '" +:+
                    Selector m s +:+ "': " +:+ cause))
  | None => Select_range text elements
  end.

Definition Submit : prog error :=
  '(element, err) ← getSingleElement;
  match err with
  | Some cause =>
      mret (Errorf ("failed to retrieve element with selector '" +:+
                    Selector m s +:+ "': " +:+ cause))
  | None =>
      err ← recv element (λ e, call_ (ESubmit e));
      match err with
      | Some cause =>
          mret (Errorf ("failed to submit selector '" +:+
                        Selector m s +:+ "': " +:+ cause))
      | None => mret None
      end
  end.

End Operations.

(** ** The public operations as one family *)

Inductive operation :=
| OpCount
| OpClick
| OpDoubleClick
| OpFill (text : string)
| OpText
| OpAttribute (attribute : string)
| OpCSS (property : string)
| OpCheck
| OpUncheck
| OpSelected
| OpVisible
| OpSelect (text : string)
| OpSubmit.

(** The operations that act on exactly one element; [Count] and [Select]
    are the two that do not. *)
Definition single_element (op : operation) : bool :=
  match op with
  | OpCount | OpSelect _ => false
  | _ => true
  end.

(** What an operation returns next to its error. *)
Inductive value :=
| NoValue
| IntValue (n : Z)
| StringValue (t : string)
| BoolValue (b : bool).

Definition perform (op : operation) (m : mem) (s : selection) : prog (value * error) :=
  match op with
  | OpCount => r ← Count m s; mret (IntValue r.1, r.2)
  | OpClick => err ← Click m s; mret (NoValue, err)
  | OpDoubleClick => err ← DoubleClick m s; mret (NoValue, err)
  | OpFill text => err ← Fill m s text; mret (NoValue, err)
  | OpText => r ← Text m s; mret (StringValue r.1, r.2)
  | OpAttribute attribute => r ← Attribute m s attribute; mret (StringValue r.1, r.2)
  | OpCSS property => r ← CSS m s property; mret (StringValue r.1, r.2)
  | OpCheck => err ← Check m s; mret (NoValue, err)
  | OpUncheck => err ← Uncheck m s; mret (NoValue, err)
  | OpSelected => r ← Selected m s; mret (BoolValue r.1, r.2)
  | OpVisible => r ← Visible m s; mret (BoolValue r.1, r.2)
  | OpSelect text => err ← Select m s text; mret (NoValue, err)
  | OpSubmit => err ← Submit m s; mret (NoValue, err)
  end.

(** The zero value of the result type of an operation. *)
Definition zero_value (op : operation) : value :=
  match op with
  | OpCount => IntValue 0
  | OpText | OpAttribute _ | OpCSS _ => StringValue EmptyString
  | OpSelected | OpVisible => BoolValue false
  | _ => NoValue
  end.

(** The first call a single-element operation issues once it holds its
    element. *)
Definition first_primitive (op : operation) (s : selection) (e : Element) : call :=
  match op with
  | OpClick => EClick e
  | OpDoubleClick => MoveTo (sel_driver s) (Some e) None
  | OpFill _ => EClear e
  | OpText => EGetText e
  | OpAttribute attribute => EGetAttribute e attribute
  | OpCSS property => EGetCSS e property
  | OpCheck | OpUncheck => EGetAttribute e "type"
  | OpSelected => EIsSelected e
  | OpVisible => EIsDisplayed e
  | OpSubmit => ESubmit e
  | OpCount | OpSelect _ => GetElements (sel_driver s) EmptyString
  end.

(** ** A test double *)

(** Scripted collaborators: what resolution yields for a selector, what
    each read yields for an element, and which error each action returns.
    The world counts the calls answered so far. *)
Record stub := Stub {
  on_elements : string → list Element * error;
  on_text : Element → string * error;
  on_attribute : Element → string → string * error;
  on_css : Element → string → string * error;
  on_selected : Element → bool * error;
  on_displayed : Element → bool * error;
  on_action : call → error
}.

Definition stub_handler (st : stub) : handler nat :=
  λ c w,
    (match c return resp c with
     | GetElements _ selector => on_elements st selector
     | EGetText e => on_text st e
     | EGetAttribute e attribute => on_attribute st e attribute
     | EGetCSS e property => on_css st e property
     | EIsSelected e => on_selected st e
     | EIsDisplayed e => on_displayed st e
     | DriverDoubleClick _ as a | MoveTo _ _ _ as a | EClick _ as a
     | EClear _ as a | EValue _ _ as a | ESubmit _ as a => on_action st a
     end, S w).

(** A page with the elements [es] under every selector, where element [i]
    has the text [texts i], every element is a checkbox whose state is
    [checked], and every action succeeds unless [failing] says otherwise. *)
Definition page (es : list Element) (texts : nat → string) (checked : bool)
    (failing : call → error) : stub :=
  {| on_elements := λ _, (es, None);
     on_text := λ e, (texts (handle_id e), None);
     on_attribute := λ _ _, ("checkbox", None);
     on_css := λ _ _, ("block", None);
     on_selected := λ _, (checked, None);
     on_displayed := λ _, (true, None);
     on_action := failing |}.

(** A driver whose resolution fails with [cause]. *)
Definition unreachable (cause : string) : stub :=
  {| on_elements := λ _, ([], Some cause);
     on_text := λ _, (EmptyString, None);
     on_attribute := λ _ _, (EmptyString, None);
     on_css := λ _ _, (EmptyString, None);
     on_selected := λ _, (false, None);
     on_displayed := λ _, (false, None);
     on_action := λ _, None |}.

(** The store and the selection of [New(d, "form").Find("input")]. *)
Definition sample : mem * selection :=
  let '(m1, s1) := New ∅ 0 "form" in Find go_growcap m1 s1 "input".

(** Three options with the texts "A", "B" and "B". *)
Definition abb : list Element := [Handle 0; Handle 1; Handle 2].

Definition abb_text (i : nat) : string :=
  match i with
  | 0 => "A"
  | _ => "B"
  end.

(** Collaborators where every action succeeds, and where every action
    fails with "stale element". *)
Definition willing : call → error := λ _, None.
Definition stale : call → error := λ _, Some "stale element".

(** [leaves P p]: whatever the collaborators answer, [p] does not panic
    and what it returns satisfies [P]. *)
Fixpoint leaves {A} (P : A → Prop) (p : prog A) : Prop :=
  match p with
  | Ret a => P a
  | Panic => False
  | Call c k => ∀ r : resp c, leaves P (k r)
  end.

(** An error that an operation returns names the rendered path, and the
    value next to it is the zero value. *)
Definition sound_result (m : mem) (s : selection) (op : operation)
    (r : value * error) : Prop :=
  ∀ msg, r.2 = Some msg → contains (Selector m s) msg ∧ r.1 = zero_value op.

(** Reading the texts of [es] one after the other from the world [w]
    succeeds with the texts [ts] and leaves the world [w']. *)
Inductive reads {W} (h : handler W) : W → list Element → list string → W → Prop :=
| reads_nil (w : W) : reads h w [] [] w
| reads_cons (w w1 w2 : W) (e : Element) (t : string) (es : list Element)
    (ts : list string) :
    h (EGetText e) w = ((t, None), w1) →
    reads h w1 es ts w2 →
    reads h w (e :: es) (t :: ts) w2.

(** ** Vocabulary for the calls of a run *)

(** [calls_all P p]: whatever the collaborators answer, every call that
    [p] issues satisfies [P]. *)
Fixpoint calls_all {A} (P : call → Prop) (p : prog A) : Prop :=
  match p with
  | Ret _ | Panic => True
  | Call c k => P c ∧ ∀ r : resp c, calls_all P (k r)
  end.

(** [max_calls kind n p]: whatever the collaborators answer, [p] issues
    at most [n] calls of the kind [kind]. *)
Fixpoint max_calls {A} (kind : call → bool) (n : nat) (p : prog A) : Prop :=
  match p with
  | Ret _ | Panic => True
  | Call c k =>
      if kind c then
        match n with
        | 0 => False
        | S n' => ∀ r : resp c, max_calls kind n' (k r)
        end
      else ∀ r : resp c, max_calls kind n (k r)
  end.

Definition any_call (c : call) : bool := true.

Definition is_resolution (c : call) : bool :=
  match c with GetElements _ _ => true | _ => false end.

(** The calls that change the remote document or the pointer. *)
Definition is_action (c : call) : bool :=
  match c with
  | DriverDoubleClick _ | MoveTo _ _ _ | EClick _ | EClear _ | EValue _ _
  | ESubmit _ => true
  | _ => false
  end.

(** The element a call is about, if any. *)
Definition target (c : call) : option Element :=
  match c with
  | GetElements _ _ | DriverDoubleClick _ => None
  | MoveTo _ element _ => element
  | EClick e | EClear e | EValue e _ | ESubmit e | EGetText e
  | EGetAttribute e _ | EGetCSS e _ | EIsSelected e | EIsDisplayed e => Some e
  end.

(** The error of an answer, and the value next to it. *)
Definition resp_error {c : call} : resp c → error :=
  match c return resp c → error with
  | GetElements _ _ => snd
  | DriverDoubleClick _ | MoveTo _ _ _ | EClick _ | EClear _ | EValue _ _
  | ESubmit _ => λ err, err
  | EGetText _ | EGetAttribute _ _ | EGetCSS _ _ => snd
  | EIsSelected _ | EIsDisplayed _ => snd
  end.

Definition resp_value {c : call} : resp c → value :=
  match c return resp c → value with
  | GetElements _ _ => λ r, IntValue (Z.of_nat (length r.1))
  | DriverDoubleClick _ | MoveTo _ _ _ | EClick _ | EClear _ | EValue _ _
  | ESubmit _ => λ _, NoValue
  | EGetText _ | EGetAttribute _ _ | EGetCSS _ _ => λ r, StringValue r.1
  | EIsSelected _ | EIsDisplayed _ => λ r, BoolValue r.1
  end.

(** The operations that read and never act. *)
Definition read_only (op : operation) : bool :=
  match op with
  | OpCount | OpText | OpAttribute _ | OpCSS _ | OpSelected | OpVisible => true
  | _ => false
  end.

(** The single-element operations that issue one primitive and return. *)
Definition single_primitive (op : operation) : bool :=
  match op with
  | OpClick | OpSubmit | OpText | OpAttribute _ | OpCSS _ | OpSelected
  | OpVisible => true
  | _ => false
  end.

(** The selector an operation hands to the driver. *)
Definition resolved_selector (op : operation) (m : mem) (s : selection) : string :=
  match op with
  | OpSelect _ => Selector m s +:+ " option"
  | _ => Selector m s
  end.

(** How many clicks an operation may issue. *)
Definition click_budget (op : operation) : nat :=
  match op with
  | OpClick | OpCheck | OpUncheck | OpSelect _ => 1
  | _ => 0
  end.

(** A page on which every read and every action fails. *)
Definition broken (es : list Element) : stub :=
  {| on_elements := λ _, (es, None);
     on_text := λ _, (EmptyString, Some "stale element");
     on_attribute := λ _ _, (EmptyString, Some "stale element");
     on_css := λ _ _, (EmptyString, Some "stale element");
     on_selected := λ _, (false, Some "stale element");
     on_displayed := λ _, (false, Some "stale element");
     on_action := stale |}.

(** The store after [s3 := New(d, "a").Find("b").Find("c")] and
    [s4 := s3.Find("d")], with [s3] and [s4]: both on one array of four
    cells. *)
Definition spare : mem * selection * selection :=
  let '(m1, s1) := New ∅ 0 "a" in
  let '(m2, s2) := Find go_growcap m1 s1 "b" in
  let '(m3, s3) := Find go_growcap m2 s2 "c" in
  let '(m4, s4) := Find go_growcap m3 s3 "d" in
  (m4, s3, s4).

(** The store and the selection of [New(d, "form input")]. *)
Definition spaced : mem * selection := New ∅ 0 "form input".

(** * Properties *)

(** ** The selector chain *)

Lemma take_insert_here {A} (arr : list A) (n : nat) (x : A) :
  n < length arr → take (S n) (<[n := x]> arr) = (take n arr ++ [x])%list.
Proof.
  intros Hn.
  rewrite (take_S_r _ _ x) by (apply list_lookup_insert_eq; exact Hn).
  rewrite take_insert_ge by lia. reflexivity.
Qed.

Lemma literal1_elems (m : mem) (x : string) :
  elems_of (literal1 m x).1 (literal1 m x).2 = [x]
  ∧ wf_slice (literal1 m x).1 (literal1 m x).2.
Proof.
  unfold literal1, elems_of, wf_slice; simpl.
  rewrite lookup_total_insert_eq. split; [done|].
  exists [x]. rewrite lookup_insert_eq. simpl. auto.
Qed.

Section AppendFacts.

Variable growcap : nat → nat → nat.

Lemma append_elems (m : mem) (sl : slice) (x : string) :
  wf_slice m sl →
  elems_of (append growcap m sl x).1 (append growcap m sl x).2
    = (elems_of m sl ++ [x])%list
  ∧ wf_slice (append growcap m sl x).1 (append growcap m sl x).2.
Proof.
  intros (arr & Harr & Hlen & Hcap).
  unfold append, elems_of.
  rewrite (lookup_total_correct _ _ _ Harr).
  case_decide as Hfit; simpl.
  - rewrite lookup_total_insert_eq, Nat.add_1_r.
    split; [apply take_insert_here; lia|].
    exists (<[len sl := x]> arr).
    rewrite lookup_insert_eq, length_insert. simpl. split_and!; [done | lia | lia].
  - rewrite lookup_total_insert_eq.
    assert (length (take (len sl) arr) = len sl) as Htake
      by (rewrite length_take; lia).
    split.
    + rewrite take_app_ge by lia.
      rewrite Htake. replace (len sl + 1 - len sl) with 1 by lia.
      reflexivity.
    + eexists. rewrite lookup_insert_eq. split; [done|].
      rewrite length_app, Htake. simpl. rewrite length_replicate. lia.
Qed.

(** The receiver of [append] shows the same elements afterwards. *)
Lemma append_keeps_receiver (m : mem) (sl : slice) (x : string) :
  wf_slice m sl →
  elems_of (append growcap m sl x).1 sl = elems_of m sl.
Proof.
  intros (arr & Harr & Hlen & Hcap).
  unfold append, elems_of.
  rewrite (lookup_total_correct _ _ _ Harr).
  case_decide as Hfit; simpl.
  - rewrite lookup_total_insert_eq. apply take_insert_ge. lia.
  - rewrite lookup_total_insert_ne.
    + rewrite (lookup_total_correct _ _ _ Harr). reflexivity.
    + intros Heq. pose proof (is_fresh (dom m)) as Hfresh.
      rewrite Heq in Hfresh. apply Hfresh, elem_of_dom. eauto.
Qed.

Lemma Find_elems (m : mem) (s : selection) (f : string) :
  wf_slice m (selectors s) →
  elems_of (Find growcap m s f).1 (selectors (Find growcap m s f).2)
    = (elems_of m (selectors s) ++ [f])%list
  ∧ wf_slice (Find growcap m s f).1 (selectors (Find growcap m s f).2).
Proof.
  intros Hwf. unfold Find.
  pose proof (append_elems m (selectors s) f Hwf) as H.
  destruct (append growcap m (selectors s) f) as [m' sl]; simpl in *.
  exact H.
Qed.

Lemma Find_all_elems (fs : list string) (m : mem) (s : selection) :
  wf_slice m (selectors s) →
  elems_of (Find_all growcap m s fs).1 (selectors (Find_all growcap m s fs).2)
    = (elems_of m (selectors s) ++ fs)%list.
Proof.
  revert m s. induction fs as [|f fs IH]; intros m s Hwf; simpl.
  - rewrite app_nil_r. reflexivity.
  - destruct (Find_elems m s f Hwf) as [Hel Hwf'].
    destruct (Find growcap m s f) as [m' s']; simpl in *.
    rewrite IH by exact Hwf'.
    rewrite Hel, <- app_assoc. reflexivity.
Qed.

(** [Find] leaves the rendered path of its receiver as it was. *)
Lemma Find_keeps_receiver (m : mem) (s : selection) (f : string) :
  wf_slice m (selectors s) →
  Selector (Find growcap m s f).1 s = Selector m s.
Proof.
  intros Hwf. unfold Selector, Find.
  pose proof (append_keeps_receiver m (selectors s) f Hwf) as H.
  destruct (append growcap m (selectors s) f) as [m' sl]; simpl in *.
  rewrite H. reflexivity.
Qed.

(** C3: a selection built by the root constructor from [f1] and then by
    [Find] with each of [fs] in turn renders [f1] and [fs] joined by
    single spaces, whatever the store held before and however the
    runtime sizes new arrays. *)
Theorem Find_chain_renders (m : mem) (d : driver) (f1 : string) (fs : list string) :
  Selector (Find_all growcap (New m d f1).1 (New m d f1).2 fs).1
           (Find_all growcap (New m d f1).1 (New m d f1).2 fs).2
    = Join (f1 :: fs) " ".
Proof.
  unfold Selector, New.
  destruct (literal1_elems m f1) as [Hel Hwf].
  destruct (literal1 m f1) as [m1 sl1]; simpl in *.
  rewrite Find_all_elems by exact Hwf.
  simpl. rewrite Hel. reflexivity.
Qed.

End AppendFacts.

(** C2 (the code departs from the claim): [New(d, "a").Find("b").Find("c")]
    holds three fragments in an array of four cells.  A first [Find("d")]
    on it yields a selection that renders "a b c d"; a second [Find("e")]
    on the same receiver writes into the same cell, and the selection of
    the first call renders "a b c e" from then on. *)
Theorem Find_overwrites_earlier_result :
  let '(m1, s1) := New ∅ 0 "a" in
  let '(m2, s2) := Find go_growcap m1 s1 "b" in
  let '(m3, s3) := Find go_growcap m2 s2 "c" in
  let '(m4, s4) := Find go_growcap m3 s3 "d" in
  let '(m5, s5) := Find go_growcap m4 s3 "e" in
  Selector m4 s4 = "a b c d" ∧ Selector m5 s4 = "a b c e"
  ∧ Selector m5 s5 = "a b c e" ∧ Selector m5 s3 = "a b c".
Proof. vm_compute. done. Qed.

(** ** Error messages *)

Lemma append_nil_r (a : string) : a +:+ EmptyString = a.
Proof.
  induction a as [|c a IH]; [reflexivity|].
  change (String c (a +:+ EmptyString) = String c a). f_equal. exact IH.
Qed.

Lemma append_assoc (a b c : string) : (a +:+ b) +:+ c = a +:+ b +:+ c.
Proof.
  induction a as [|x a IH]; [reflexivity|].
  change (String x ((a +:+ b) +:+ c) = String x (a +:+ b +:+ c)).
  f_equal. exact IH.
Qed.

Lemma contains_here (p after : string) : contains p (p +:+ after).
Proof. exists EmptyString, after. reflexivity. Qed.

Lemma contains_refl (p : string) : contains p p.
Proof. exists EmptyString, EmptyString. symmetry. apply (append_nil_r p). Qed.

Lemma contains_behind (p a x : string) : contains p x → contains p (a +:+ x).
Proof.
  intros (before & after & ->). exists (a +:+ before), after.
  symmetry. apply append_assoc.
Qed.

Create HintDb selection.
#[local] Hint Resolve contains_here contains_refl contains_behind : selection.

(** The count printed by [%d] determines the count. *)
Lemma fmt_d_inj (a b : Z) : fmt_d a = fmt_d b → a = b.
Proof. unfold fmt_d. apply pretty_Z_inj. Qed.

(** ** What every run returns *)

Lemma leaves_bind {A B} (P : A → Prop) (Q : B → Prop) (p : prog A) (f : A → prog B) :
  leaves P p → (∀ a, P a → leaves Q (f a)) → leaves Q (bind p f).
Proof.
  intros Hp Hf. induction p as [a| |c k IH]; simpl in *.
  - apply Hf, Hp.
  - exact Hp.
  - intros r. apply IH, Hp.
Qed.

Lemma leaves_run {W A} (h : handler W) (P : A → Prop) (p : prog A) (w : W) :
  leaves P p → ∃ a w' tr, run h p w = (Done a, w', tr) ∧ P a.
Proof.
  revert w. induction p as [a| |c k IH]; simpl; intros w Hp.
  - eauto.
  - destruct Hp.
  - destruct (h c w) as [r w1].
    destruct (IH r w1 (Hp r)) as (a & w' & tr & -> & Ha). eauto.
Qed.

(** ** Running the operations *)

Ltac open_ops :=
  unfold perform, Check, Uncheck, setChecked, Click, DoubleClick, Fill, Text,
    Attribute, CSS, Selected, Visible, Submit, Select, Count, getSingleElement,
    recv, call_;
  cbn.

(** Settle the tests whose outcome the context decides. *)
Ltac settle :=
  repeat (case_decide; try (exfalso; (lia || congruence || tauto)); [idtac]);
  cbn.

(** Use the answer [H] of the handler in the run at hand. *)
Ltac answer H := rewrite H; cbn; settle.

(** Case analysis on the next answer of an arbitrary handler. *)
Ltac next_answer :=
  match goal with
  | H : context [let '(_, _) := ?h ?c ?w in _] |- _ =>
      let r := fresh "r" in let w' := fresh "w" in
      destruct (h c w) as [r w']; cbn in H
  | |- context [let '(_, _) := ?h ?c ?w in _] =>
      let r := fresh "r" in let w' := fresh "w" in
      destruct (h c w) as [r w']; cbn
  end.

Section Runs.

Context {W : Type}.
Variable h : handler W.
Variable m : mem.
Variable s : selection.

Local Abbreviation path := (Selector m s).
Local Abbreviation resolve := (GetElements (sel_driver s) (Selector m s)).

(** C8: when the driver resolves the rendered path to the elements [es],
    [Count] returns their number [k] and no error, for every [k] from
    zero on, after that one call; when the resolution fails with
    [cause], [Count] returns an error that names the rendered path and
    carries the text of the cause. *)
Theorem Count_returns_number (w w1 : W) (es : list Element) (err : error) :
  h resolve w = ((es, err), w1) →
  (∀ k : nat, err = None → length es = k →
     run h (Count m s) w = (Done (Z.of_nat k, None), w1, [resolve]))
  ∧ (∀ cause, err = Some cause →
     ∃ msg, run h (Count m s) w = (Done (0%Z, Some msg), w1, [resolve])
            ∧ msg = "failed to retrieve elements for selector '" +:+ path +:+
                    "': " +:+ cause
            ∧ contains path msg ∧ contains cause msg).
Proof.
  intros H. split.
  - intros k -> <-. open_ops. answer H. reflexivity.
  - intros cause ->. eexists. split; [|split; [reflexivity|]].
    + open_ops. answer H. reflexivity.
    + split; eauto 6 with selection.
Qed.

(** What [getSingleElement] returns after a resolution that succeeded. *)
Lemma getSingleElement_policy (w w1 : W) (es : list Element) :
  h resolve w = ((es, None), w1) →
  run h (getSingleElement m s) w =
    (match es with
     | [] => Done (None, Some "no element found")
     | [e] => Done (Some e, None)
     | _ => Done (None, Some ("mutiple elements (" +:+
                              fmt_d (Z.of_nat (length es)) +:+
                              ") were selected"))
     end, w1, [resolve]).
Proof.
  intros H. open_ops. answer H.
  destruct es as [|e [|e' es]]; reflexivity.
Qed.

(** C1: for each of the eleven single-element operations, after the
    driver resolved the rendered path to [es]: with no element the
    operation fails with "no element found" and issues no further call;
    with two or more it fails with the message of several elements,
    which prints their exact number, and issues no further call; with
    exactly one element [e] it goes on, and its next call is its own
    first primitive on [e]. *)
Theorem single_element_policy (op : operation) (w w1 : W) (es : list Element) :
  single_element op = true →
  h resolve w = ((es, None), w1) →
  (es = [] →
     run h (perform op m s) w =
       (Done (zero_value op,
              Some ("failed to retrieve element with selector '" +:+ path +:+
                    "': " +:+ "no element found")), w1, [resolve]))
  ∧ (2 ≤ length es →
     run h (perform op m s) w =
       (Done (zero_value op,
              Some ("failed to retrieve element with selector '" +:+ path +:+
                    "': " +:+ "mutiple elements (" +:+
                    fmt_d (Z.of_nat (length es)) +:+ ") were selected")),
        w1, [resolve]))
  ∧ (∀ e, es = [e] →
     ∃ o w2 tr,
       run h (perform op m s) w = (o, w2, resolve :: first_primitive op s e :: tr)).
Proof.
  intros Hop H. split_and!.
  - intros ->. destruct op; try discriminate Hop; open_ops; answer H; reflexivity.
  - intros Hlen.
    destruct es as [|e [|e' es']]; simpl in Hlen; try lia.
    destruct op; try discriminate Hop; open_ops; answer H; reflexivity.
  - intros e ->.
    destruct op; try discriminate Hop; open_ops; answer H;
      next_answer;
      repeat match goal with
             | |- context [run h ?p ?w0] => destruct (run h p w0) as [[? ?] ?]
             end;
      by eauto.
Qed.

(** C4: [Check] ([checked] true) and [Uncheck] ([checked] false) on a
    path that resolves to the one element [e] whose attribute "type"
    reads [elementType]: unless that is "checkbox" the operation fails
    with the message that the path does not refer to a checkbox and
    clicks nothing; on a checkbox whose state already is [checked] it
    succeeds and clicks nothing; on a checkbox in the other state it
    clicks [e] exactly once, and succeeds when that click does. *)
Theorem Check_Uncheck_policy (checked : bool) (w w1 w2 : W) (e : Element)
    (elementType : string) :
  h resolve w = (([e], None), w1) →
  h (EGetAttribute e "type") w1 = ((elementType, None), w2) →
  (elementType ≠ "checkbox" →
     ∃ tr, run h (if checked then Check m s else Uncheck m s) w =
             (Done (Some ("selector '" +:+ path +:+
                          "' does not refer to a checkbox")), w2, tr)
           ∧ tr = [resolve; EGetAttribute e "type"]
           ∧ count is_click tr = 0)
  ∧ (elementType = "checkbox" →
     ∀ selected w3, h (EIsSelected e) w2 = ((selected, None), w3) →
       (selected = checked →
          ∃ tr, run h (if checked then Check m s else Uncheck m s) w =
                  (Done None, w3, tr)
                ∧ tr = [resolve; EGetAttribute e "type"; EIsSelected e]
                ∧ count is_click tr = 0)
       ∧ (selected ≠ checked →
          ∀ r w4, h (EClick e) w3 = (r, w4) →
            ∃ res tr, run h (if checked then Check m s else Uncheck m s) w =
                        (Done res, w4, tr)
                      ∧ tr = [resolve; EGetAttribute e "type"; EIsSelected e;
                              EClick e]
                      ∧ count is_click tr = 1
                      ∧ (r = None ↔ res = None))).
Proof.
  intros H Htype. split.
  - intros Hne. eexists. split; [|split; reflexivity].
    destruct checked; open_ops; answer H; answer Htype; reflexivity.
  - intros -> selected w3 Hsel. split.
    + intros ->. eexists. split; [|split; reflexivity].
      destruct checked; open_ops; answer H; answer Htype; answer Hsel;
        reflexivity.
    + intros Hne r w4 Hclick.
      exists (match r with
              | Some cause => Some ("failed to click selector '" +:+ path +:+
                                    "': " +:+ cause)
              | None => None
              end).
      eexists. split; [|split; [reflexivity|split; [reflexivity|]]].
      * destruct checked; open_ops; answer H; answer Htype; answer Hsel;
          answer Hclick; destruct r; reflexivity.
      * destruct r; split; congruence.
Qed.

(** C6: [Fill] on a path that resolves to the one element [e]: when
    clearing [e] fails, [Fill] returns the wrapped error and never sets
    the value; when clearing succeeds, it sets the value next and
    succeeds exactly when that does; and whenever [Fill] succeeds, the
    calls behind the resolution were one clear and then one set-value,
    both on [e]. *)
Theorem Fill_clears_then_sets (text : string) (w w1 : W) (e : Element) :
  h resolve w = (([e], None), w1) →
  (∀ cause w2, h (EClear e) w1 = (Some cause, w2) →
     ∃ tr, run h (Fill m s text) w =
             (Done (Some ("failed to clear selector '" +:+ path +:+ "': " +:+
                          cause)), w2, tr)
           ∧ tr = [resolve; EClear e] ∧ count is_value tr = 0)
  ∧ (∀ w2 r w3, h (EClear e) w1 = (None, w2) →
       h (EValue e text) w2 = (r, w3) →
       ∃ res, run h (Fill m s text) w =
                (Done res, w3, [resolve; EClear e; EValue e text])
              ∧ (r = None ↔ res = None))
  ∧ (∀ w' tr, run h (Fill m s text) w = (Done None, w', tr) →
       tr = [resolve; EClear e; EValue e text]).
Proof.
  intros H. split_and!.
  - intros cause w2 Hclear. eexists. split; [|split; reflexivity].
    open_ops. answer H. answer Hclear. reflexivity.
  - intros w2 r w3 Hclear Hvalue.
    exists (match r with
            | Some cause => Some ("failed to enter text into selector '" +:+
                                  path +:+ "': " +:+ cause)
            | None => None
            end).
    split.
    + open_ops. answer H. answer Hclear. answer Hvalue.
      destruct r; reflexivity.
    + destruct r; split; congruence.
  - intros w' tr Hrun. revert Hrun. open_ops. answer H.
    destruct (h (EClear e) w1) as [[cause|] w2]; cbn; [discriminate|].
    destruct (h (EValue e text) w2) as [[cause|] w3]; cbn; [discriminate|].
    intros [= <- <-]. reflexivity.
Qed.

(** C7: [DoubleClick] on a path that resolves to the one element [e]
    asks the driver to move to [e] with no point; when that fails it
    returns the wrapped error and the double-click of the driver is
    never issued; when it succeeds the double-click is issued next;
    and in every run that issued a double-click, the move came first. *)
Theorem DoubleClick_moves_first (w w1 : W) (e : Element) :
  h resolve w = (([e], None), w1) →
  (∀ cause w2, h (MoveTo (sel_driver s) (Some e) None) w1 = (Some cause, w2) →
     ∃ tr, run h (DoubleClick m s) w =
             (Done (Some ("failed to move mouse to selector '" +:+ path +:+
                          "': " +:+ cause)), w2, tr)
           ∧ tr = [resolve; MoveTo (sel_driver s) (Some e) None]
           ∧ count is_double_click tr = 0)
  ∧ (∀ w2 r w3, h (MoveTo (sel_driver s) (Some e) None) w1 = (None, w2) →
       h (DriverDoubleClick (sel_driver s)) w2 = (r, w3) →
       ∃ res, run h (DoubleClick m s) w =
                (Done res, w3,
                 [resolve; MoveTo (sel_driver s) (Some e) None;
                  DriverDoubleClick (sel_driver s)])
              ∧ (r = None ↔ res = None))
  ∧ (∀ o w' tr, run h (DoubleClick m s) w = (o, w', tr) →
       count is_double_click tr ≠ 0 →
       tr = [resolve; MoveTo (sel_driver s) (Some e) None;
             DriverDoubleClick (sel_driver s)]).
Proof.
  intros H. split_and!.
  - intros cause w2 Hmove. eexists. split; [|split; reflexivity].
    open_ops. answer H. answer Hmove. reflexivity.
  - intros w2 r w3 Hmove Hdouble.
    exists (match r with
            | Some cause => Some ("failed to double-click on selector '" +:+
                                  path +:+ "': " +:+ cause)
            | None => None
            end).
    split.
    + open_ops. answer H. answer Hmove. answer Hdouble.
      destruct r; reflexivity.
    + destruct r; split; congruence.
  - intros o w' tr Hrun. revert Hrun. open_ops. answer H.
    destruct (h (MoveTo (sel_driver s) (Some e) None) w1) as [[cause|] w2]; cbn.
    { intros [= <- <- <-]. intros Hc. exfalso. apply Hc. reflexivity. }
    destruct (h (DriverDoubleClick (sel_driver s)) w2) as [[cause|] w3]; cbn;
      intros [= <- <- <-]; reflexivity.
Qed.

(** The loop of [Select] passes over options whose text differs from
    the one asked for, reading each text once. *)
Lemma Select_range_skips (text : string) (before rest : list Element)
    (ts : list string) (w1 w2 : W) :
  reads h w1 before ts w2 →
  Forall (λ t, t ≠ text) ts →
  run h (Select_range m s text (before ++ rest)) w1 =
    (let '(o, w', tr) := run h (Select_range m s text rest) w2 in
     (o, w', (map EGetText before ++ tr)%list)).
Proof.
  intros Hreads. induction Hreads as [w0|w0 w1 w2 e t es ts Hread _ IH];
    intros Hts.
  - simpl. destruct (run h (Select_range m s text rest) w0) as [[o w'] tr].
    reflexivity.
  - apply Forall_cons in Hts as [Ht Hts].
    simpl. unfold call_. cbn. answer Hread.
    rewrite (IH Hts).
    destruct (run h (Select_range m s text rest) w2) as [[o w'] tr].
    reflexivity.
Qed.

(** C5: [Select] resolves the rendered path followed by " option", and
    nothing else, whatever the number of options.  When the option [o]
    is the first whose text is [text], the options before it have their
    text read in order, [o] is clicked, and with that click succeeding
    [Select] succeeds without a call on any later option.  When every
    option has been read and none has the text, [Select] fails with the
    message that names [text] and the rendered path. *)
Theorem Select_clicks_first_match (text : string) (w w1 : W) (es : list Element) :
  h (GetElements (sel_driver s) (path +:+ " option")) w = ((es, None), w1) →
  (∀ before o after ts w2 w3 w4,
     es = (before ++ o :: after)%list →
     reads h w1 before ts w2 →
     Forall (λ t, t ≠ text) ts →
     h (EGetText o) w2 = ((text, None), w3) →
     h (EClick o) w3 = (None, w4) →
     run h (Select m s text) w =
       (Done None, w4,
        GetElements (sel_driver s) (path +:+ " option")
          :: (map EGetText before ++ [EGetText o; EClick o])%list))
  ∧ (∀ ts w2,
     reads h w1 es ts w2 →
     Forall (λ t, t ≠ text) ts →
     ∃ msg,
       run h (Select m s text) w =
         (Done (Some msg), w2,
          GetElements (sel_driver s) (path +:+ " option") :: map EGetText es)
       ∧ msg = "no options with text " +:+ dquote +:+ text +:+ dquote +:+
               " found for selector '" +:+ path +:+ "'"
       ∧ contains text msg ∧ contains path msg).
Proof.
  intros H. split.
  - intros before o after ts w2 w3 w4 -> Hreads Hts Htext Hclick.
    open_ops. answer H.
    rewrite (Select_range_skips text before (o :: after) ts w1 w2 Hreads Hts).
    simpl. unfold call_. cbn. answer Htext. answer Hclick. reflexivity.
  - intros ts w2 Hreads Hts. eexists. split; [|split; [reflexivity|]].
    + open_ops. answer H.
      rewrite <- (app_nil_r es) at 1.
      rewrite (Select_range_skips text es [] ts w1 w2 Hreads Hts).
      simpl. rewrite app_nil_r. reflexivity.
    + split; eauto 8 with selection.
Qed.

Lemma Select_range_leaves (text : string) (elements : list Element) :
  leaves (λ err, ∀ msg, err = Some msg → contains path msg)
         (Select_range m s text elements).
Proof.
  induction elements as [|element rest IH]; simpl.
  - intros msg [= <-]. eauto 8 with selection.
  - unfold call_. cbn. intros [elementText [cause|]]; cbn.
    + intros msg [= <-]. eauto 8 with selection.
    + case_decide; [|exact IH]. cbn.
      intros [cause|]; cbn; intros msg [= <-]. eauto 10 with selection.
Qed.

Lemma perform_leaves (op : operation) :
  leaves (sound_result m s op) (perform op m s).
Proof.
  unfold sound_result.
  destruct op;
    try (open_ops;
         repeat first
           [ progress cbn
           | match goal with
             | |- False => simpl in *; (lia || congruence)
             | |- ∀ r : list Element * _, _ => intros [[|? [|? ?]] ?]
             | |- ∀ r : _ * _, _ => intros [? ?]
             | |- ∀ r : error, _ => intros [?|]
             | |- ∀ msg : string, _ = Some msg → _ =>
                 intros ? [= <-]; split; [eauto 10 with selection | reflexivity]
             | |- ∀ msg : string, _ => intros ? [=]
             | |- context [match ?x with Some _ => _ | None => _ end] =>
                 destruct x
             | |- context [match ?x with [] => _ | _ :: _ => _ end] =>
                 destruct x
             | |- context [decide ?P] => destruct (decide P)
             end ]; fail).
  (* Select *)
  unfold perform, Select. unfold call_. cbn.
  intros [elements [cause|]]; cbn.
  - intros msg [= <-]. split; [eauto 8 with selection | reflexivity].
  - apply (leaves_bind (λ err, ∀ msg, err = Some msg → contains path msg)).
    + apply Select_range_leaves.
    + intros err Herr. cbn. intros msg ->. split; [eauto | reflexivity].
Qed.

(** Every operation returns: none of them panics or runs on, whatever
    the collaborators answer. *)
Lemma perform_returns (op : operation) (w : W) :
  ∃ r w' tr, run h (perform op m s) w = (Done r, w', tr).
Proof.
  destruct (leaves_run h _ _ w (perform_leaves op)) as (r & w' & tr & Hrun & _).
  eauto.
Qed.

(** C9: whenever an operation of a selection returns an error, whichever
    step failed, the message of the error contains the rendered path of
    that selection. *)
Theorem error_names_path (op : operation) (w w' : W) (tr : list call)
    (v : value) (msg : string) :
  run h (perform op m s) w = (Done (v, Some msg), w', tr) →
  contains path msg.
Proof.
  intros Hrun.
  destruct (leaves_run h _ _ w (perform_leaves op)) as (r & w2 & tr2 & Hrun2 & Hr).
  rewrite Hrun in Hrun2. injection Hrun2 as <- <- <-.
  apply (Hr msg eq_refl).
Qed.

(** C10: whenever an operation returns an error, the value it returns
    with it is the zero value of its result type: 0 for [Count], the
    empty string for [Text], [Attribute] and [CSS], false for
    [Selected] and [Visible]. *)
Theorem failure_returns_zero_value (op : operation) (w w' : W) (tr : list call)
    (v : value) (msg : string) :
  run h (perform op m s) w = (Done (v, Some msg), w', tr) →
  v = zero_value op.
Proof.
  intros Hrun.
  destruct (leaves_run h _ _ w (perform_leaves op)) as (r & w2 & tr2 & Hrun2 & Hr).
  rewrite Hrun in Hrun2. injection Hrun2 as <- <- <-.
  apply (Hr msg eq_refl).
Qed.

End Runs.

(** ** The properties at concrete pages

    The selection is [New(d, "form").Find("input")], whose rendered path is
    "form input"; the collaborators are the scripted ones, and the world
    counts the calls they answered. *)

Lemma Count_returns_number_witness :
  run (stub_handler (page abb abb_text false willing)) (Count sample.1 sample.2) 0
    = (Done (3%Z, None), 1, [GetElements 0 "form input"]).
Proof.
  pose proof (Count_returns_number (stub_handler (page abb abb_text false willing))
                sample.1 sample.2 0 1 abb None eq_refl) as [Hk _].
  exact (Hk 3 eq_refl eq_refl).
Defined.

Lemma single_element_policy_witness :
  run (stub_handler (page abb abb_text false willing))
      (perform OpClick sample.1 sample.2) 0
    = (Done (NoValue,
             Some "failed to retrieve element with selector 'form input': mutiple elements (3) were selected"),
       1, [GetElements 0 "form input"]).
Proof.
  pose proof (single_element_policy (stub_handler (page abb abb_text false willing))
                sample.1 sample.2 OpClick 0 1 abb eq_refl eq_refl)
    as (_ & Hmany & _).
  apply Hmany. vm_compute. lia.
Defined.

Lemma Check_Uncheck_policy_witness :
  ∃ res tr,
    run (stub_handler (page [Handle 7] abb_text false willing))
        (Check sample.1 sample.2) 0 = (Done res, 4, tr)
    ∧ tr = [GetElements 0 "form input"; EGetAttribute (Handle 7) "type";
            EIsSelected (Handle 7); EClick (Handle 7)]
    ∧ count is_click tr = 1
    ∧ (@None string = None ↔ res = None).
Proof.
  pose proof (Check_Uncheck_policy (stub_handler (page [Handle 7] abb_text false willing))
                sample.1 sample.2 true 0 1 2 (Handle 7) "checkbox"
                eq_refl eq_refl) as [_ Hbox].
  destruct (Hbox eq_refl false 3 eq_refl) as [_ Hclick].
  apply (Hclick ltac:(discriminate) None 4 eq_refl).
Defined.

Lemma Select_clicks_first_match_witness :
  run (stub_handler (page abb abb_text false willing))
      (Select sample.1 sample.2 "B") 0
    = (Done None, 4,
       [GetElements 0 "form input option"; EGetText (Handle 0);
        EGetText (Handle 1); EClick (Handle 1)]).
Proof.
  pose proof (Select_clicks_first_match (stub_handler (page abb abb_text false willing))
                sample.1 sample.2 "B" 0 1 abb eq_refl) as [Hfirst _].
  apply (Hfirst [Handle 0] (Handle 1) [Handle 2] ["A"] 2 3 4 eq_refl).
  - apply (reads_cons _ 1 2 2 (Handle 0) "A" [] [] eq_refl). apply reads_nil.
  - apply Forall_cons. split; [discriminate | apply Forall_nil_2].
  - reflexivity.
  - reflexivity.
Defined.

Lemma Fill_clears_then_sets_witness :
  ∃ tr,
    run (stub_handler (page [Handle 7] abb_text false stale))
        (Fill sample.1 sample.2 "x") 0
      = (Done (Some "failed to clear selector 'form input': stale element"), 2, tr)
    ∧ tr = [GetElements 0 "form input"; EClear (Handle 7)]
    ∧ count is_value tr = 0.
Proof.
  pose proof (Fill_clears_then_sets (stub_handler (page [Handle 7] abb_text false stale))
                sample.1 sample.2 "x" 0 1 (Handle 7) eq_refl) as (Hfail & _ & _).
  exact (Hfail "stale element" 2 eq_refl).
Defined.

Lemma DoubleClick_moves_first_witness :
  ∃ tr,
    run (stub_handler (page [Handle 7] abb_text false stale))
        (DoubleClick sample.1 sample.2) 0
      = (Done (Some "failed to move mouse to selector 'form input': stale element"),
         2, tr)
    ∧ tr = [GetElements 0 "form input"; MoveTo 0 (Some (Handle 7)) None]
    ∧ count is_double_click tr = 0.
Proof.
  pose proof (DoubleClick_moves_first (stub_handler (page [Handle 7] abb_text false stale))
                sample.1 sample.2 0 1 (Handle 7) eq_refl) as (Hfail & _ & _).
  exact (Hfail "stale element" 2 eq_refl).
Defined.

Lemma error_names_path_witness :
  contains "form input"
    "failed to retrieve options for selector 'form input': connection refused".
Proof.
  apply (error_names_path (stub_handler (unreachable "connection refused"))
           sample.1 sample.2 (OpSelect "B") 0 1
           [GetElements 0 "form input option"] NoValue).
  reflexivity.
Defined.

Lemma failure_returns_zero_value_witness :
  BoolValue false = zero_value OpVisible.
Proof.
  apply (failure_returns_zero_value (stub_handler (unreachable "connection refused"))
           sample.1 sample.2 OpVisible 0 1 [GetElements 0 "form input"]
           (BoolValue false)
           "failed to retrieve element with selector 'form input': connection refused").
  reflexivity.
Defined.

(** * Further properties of the selector chain *)

Lemma Join_tail_snoc (l : list string) (f sep : string) :
  Join_tail (l ++ [f])%list sep = Join_tail l sep +:+ sep +:+ f.
Proof.
  induction l as [|e l IH]; simpl.
  - rewrite append_nil_r. reflexivity.
  - rewrite IH, !append_assoc. reflexivity.
Qed.

Lemma Join_snoc (l : list string) (f sep : string) :
  l ≠ [] → Join (l ++ [f])%list sep = Join l sep +:+ sep +:+ f.
Proof.
  destruct l as [|e l]; [congruence|]. intros _. simpl.
  rewrite Join_tail_snoc, append_assoc. reflexivity.
Qed.

Section ChainFacts.

Variable growcap : nat → nat → nat.

(** [append] leaves every other slice of the store a slice of the store. *)
Lemma append_wf_other (m : mem) (sl sl' : slice) (x : string) :
  wf_slice m sl' → wf_slice (append growcap m sl x).1 sl'.
Proof.
  intros (arr & Harr & Hlen & Hcap). unfold append.
  case_decide as Hfit; simpl.
  - destruct (decide (ptr sl = ptr sl')) as [Heq|Hne].
    + exists (<[len sl := x]> arr).
      rewrite Heq, lookup_insert_eq, (lookup_total_correct _ _ _ Harr),
        length_insert.
      auto.
    + exists arr. rewrite lookup_insert_ne by exact Hne. auto.
  - exists arr. rewrite lookup_insert_ne; [auto|].
    intros Heq. pose proof (is_fresh (dom m)) as Hfresh.
    rewrite Heq in Hfresh. apply Hfresh, elem_of_dom. eauto.
Qed.

(** The slices that [append] leaves as they were: those of another array,
    those no longer than the receiver, and all of them when the receiver
    has no spare cell. *)
Lemma append_keeps_other (m : mem) (sl sl' : slice) (x : string) :
  wf_slice m sl' →
  ptr sl' ≠ ptr sl ∨ len sl' ≤ len sl ∨ ¬ len sl + 1 ≤ cap sl →
  elems_of (append growcap m sl x).1 sl' = elems_of m sl'.
Proof.
  intros (arr & Harr & Hlen & Hcap) Hcase. unfold append, elems_of.
  case_decide as Hfit; simpl.
  - destruct (decide (ptr sl = ptr sl')) as [Heq|Hne].
    + rewrite Heq, lookup_total_insert_eq.
      rewrite (lookup_total_correct _ _ _ Harr).
      apply take_insert_ge. destruct Hcase as [Hp|[Hl|Hc]]; [congruence|lia|tauto].
    + rewrite lookup_total_insert_ne by exact Hne. reflexivity.
  - rewrite lookup_total_insert_ne; [reflexivity|].
    intros Heq. pose proof (is_fresh (dom m)) as Hfresh.
    rewrite Heq in Hfresh. apply Hfresh, elem_of_dom. eauto.
Qed.

Lemma Find_wf_other (m : mem) (s s' : selection) (f : string) :
  wf_slice m (selectors s') → wf_slice (Find growcap m s f).1 (selectors s').
Proof.
  intros Hwf. unfold Find.
  pose proof (append_wf_other m (selectors s) (selectors s') f Hwf) as H.
  destruct (append growcap m (selectors s) f) as [m' sl]; simpl in *. exact H.
Qed.

Lemma Find_elems_other (m : mem) (s s' : selection) (f : string) :
  wf_slice m (selectors s') →
  ptr (selectors s') ≠ ptr (selectors s)
  ∨ len (selectors s') ≤ len (selectors s)
  ∨ ¬ len (selectors s) + 1 ≤ cap (selectors s) →
  elems_of (Find growcap m s f).1 (selectors s') = elems_of m (selectors s').
Proof.
  intros Hwf Hcase. unfold Find.
  pose proof (append_keeps_other m (selectors s) (selectors s') f Hwf Hcase) as H.
  destruct (append growcap m (selectors s) f) as [m' sl]; simpl in *. exact H.
Qed.

(** The slice that [Find] returns is the receiver's array one longer, or a
    newly allocated array. *)
Lemma Find_result_shape (m : mem) (s : selection) (f : string) :
  len (selectors (Find growcap m s f).2) = len (selectors s) + 1
  ∧ (ptr (selectors (Find growcap m s f).2) = ptr (selectors s)
     ∨ ptr (selectors (Find growcap m s f).2) ∉ dom m).
Proof.
  unfold Find, append. case_decide; simpl; split; auto.
  right. apply is_fresh.
Qed.

Lemma Find_driver (m : mem) (s : selection) (f : string) :
  sel_driver (Find growcap m s f).2 = sel_driver s.
Proof.
  unfold Find. destruct (append growcap m (selectors s) f); reflexivity.
Qed.

Lemma Find_all_driver (fs : list string) (m : mem) (s : selection) :
  sel_driver (Find_all growcap m s fs).2 = sel_driver s.
Proof.
  revert m s. induction fs as [|f fs IH]; intros m s; simpl; [reflexivity|].
  pose proof (Find_driver m s f) as Hd.
  destruct (Find growcap m s f) as [m' s']; simpl in *.
  rewrite IH. exact Hd.
Qed.

Lemma Find_all_wf (fs : list string) (m : mem) (s : selection) :
  wf_slice m (selectors s) →
  wf_slice (Find_all growcap m s fs).1 (selectors (Find_all growcap m s fs).2).
Proof.
  revert m s. induction fs as [|f fs IH]; intros m s Hwf; simpl; [exact Hwf|].
  destruct (Find_elems growcap m s f Hwf) as [_ Hwf'].
  destruct (Find growcap m s f) as [m' s']; simpl in *.
  apply IH, Hwf'.
Qed.

(** A chain of [Find] calls leaves a selection as it was when the chain
    starts from a selection that is at least as long or lives in another
    array. *)
Lemma Find_all_elems_other (fs : list string) (m : mem) (s s' : selection) :
  wf_slice m (selectors s') →
  ptr (selectors s') ≠ ptr (selectors s)
  ∨ len (selectors s') ≤ len (selectors s) →
  elems_of (Find_all growcap m s fs).1 (selectors s') = elems_of m (selectors s').
Proof.
  revert m s. induction fs as [|f fs IH]; intros m s Hwf Hcase; simpl;
    [reflexivity|].
  pose proof (Find_wf_other m s s' f Hwf) as Hwf'.
  pose proof (Find_elems_other m s s' f Hwf) as Hsame.
  destruct (Find_result_shape m s f) as [Hlen Hptr].
  destruct (Find growcap m s f) as [m1 s1]; simpl in *.
  rewrite IH; [apply Hsame; tauto | exact Hwf' |].
  destruct Hptr as [Hptr|Hptr].
  - rewrite Hptr, Hlen. destruct Hcase; [tauto|right; lia].
  - left. intros Heq. apply Hptr. rewrite <- Heq.
    destruct Hwf as (arr & Harr & _). apply elem_of_dom. eauto.
Qed.

(** X1: [Find] on a selection of at least one fragment renders the path
    of its receiver, one space and the new fragment; the fragment is
    taken as it is, empty or with spaces of its own. *)
Theorem Find_extends_path (m : mem) (s : selection) (f : string) :
  wf_slice m (selectors s) →
  0 < len (selectors s) →
  Selector (Find growcap m s f).1 (Find growcap m s f).2
    = Selector m s +:+ " " +:+ f.
Proof.
  intros Hwf Hlen.
  destruct (Find_elems growcap m s f Hwf) as [Hel _].
  unfold Selector. rewrite Hel. apply Join_snoc.
  destruct Hwf as (arr & Harr & Hle & _).
  unfold elems_of. rewrite (lookup_total_correct _ _ _ Harr).
  intros Hnil. apply (f_equal length) in Hnil.
  rewrite length_take in Hnil. simpl in Hnil. lia.
Qed.

(** X2: [Find] leaves the rendered path of every selection that lives in
    another array than the receiver's, or holds no more fragments than
    the receiver; the receiver itself is one of them. *)
Theorem Find_keeps_unrelated (m : mem) (s s' : selection) (f : string) :
  wf_slice m (selectors s') →
  ptr (selectors s') ≠ ptr (selectors s)
  ∨ len (selectors s') ≤ len (selectors s) →
  Selector (Find growcap m s f).1 s' = Selector m s'.
Proof.
  intros Hwf Hcase. unfold Selector.
  rewrite Find_elems_other; [reflexivity | exact Hwf | tauto].
Qed.


(** X4: [Find] on a selection with a spare cell in its array writes the
    fragment into the cell behind the receiver's last fragment; every
    longer selection on the same array shows the new fragment at that
    position from then on. *)
Theorem Find_with_spare_overwrites (m : mem) (s s' : selection) (f : string) :
  wf_slice m (selectors s') →
  ptr (selectors s') = ptr (selectors s) →
  len (selectors s) + 1 ≤ cap (selectors s) →
  len (selectors s) < len (selectors s') →
  elems_of (Find growcap m s f).1 (selectors s') !! len (selectors s) = Some f.
Proof.
  intros (arr & Harr & Hlen & Hcap) Hptr Hspare Hlonger.
  unfold Find, append. case_decide; [|tauto]. simpl.
  unfold elems_of. rewrite Hptr, lookup_total_insert_eq.
  rewrite <- Hptr, (lookup_total_correct _ _ _ Harr).
  rewrite lookup_take_lt by exact Hlonger.
  apply list_lookup_insert_eq. lia.
Qed.

(** X5: in a chain built from a root selection, the selection reached
    after the fragments [fs1] still renders the root fragment and [fs1]
    after any further chain of [Find] calls on it and its descendants. *)
Theorem Find_chain_keeps_ancestor (m : mem) (d : driver) (f1 : string)
    (fs1 fs2 : list string) :
  Selector
    (Find_all growcap
       (Find_all growcap (New m d f1).1 (New m d f1).2 fs1).1
       (Find_all growcap (New m d f1).1 (New m d f1).2 fs1).2 fs2).1
    (Find_all growcap (New m d f1).1 (New m d f1).2 fs1).2
  = Join (f1 :: fs1) " ".
Proof.
  unfold New.
  destruct (literal1_elems m f1) as [Hel Hwf].
  destruct (literal1 m f1) as [m1 sl1]; simpl in *.
  pose proof (Find_all_wf fs1 m1 (Selection d sl1) Hwf) as Hwf1.
  pose proof (Find_all_elems growcap fs1 m1 (Selection d sl1) Hwf) as Hel1.
  destruct (Find_all growcap m1 (Selection d sl1) fs1) as [m2 s2]; simpl in *.
  unfold Selector.
  rewrite Find_all_elems_other; [| exact Hwf1 | right; lia].
  rewrite Hel1, Hel. reflexivity.
Qed.

(** X6: two [Find] calls on the same root selection do not interfere:
    the result of the first renders the root fragment and its own
    fragment after the second call as well. *)
Theorem Find_siblings_of_root (m : mem) (d : driver) (f1 x y : string) :
  Selector
    (Find growcap (Find growcap (New m d f1).1 (New m d f1).2 x).1
       (New m d f1).2 y).1
    (Find growcap (New m d f1).1 (New m d f1).2 x).2
  = f1 +:+ " " +:+ x.
Proof.
  unfold New.
  destruct (literal1_elems m f1) as [Hel Hwf].
  pose proof (eq_refl : len (literal1 m f1).2 = 1) as Hlen.
  pose proof (eq_refl : cap (literal1 m f1).2 = 1) as Hcap.
  destruct (literal1 m f1) as [m1 sl1]; simpl in *.
  destruct (Find_elems growcap m1 (Selection d sl1) x Hwf) as [Hel2 Hwf2].
  destruct (Find growcap m1 (Selection d sl1) x) as [m2 s2]; simpl in *.
  unfold Selector.
  rewrite Find_elems_other; [| exact Hwf2 | simpl; right; right; lia].
  rewrite Hel2, Hel. simpl. rewrite append_nil_r. reflexivity.
Qed.

(** X7: chaining [Find(f)] and [Find(g)] renders the same path as one
    [Find] with [f], a space and [g]. *)
Theorem Find_twice_as_one (m : mem) (s : selection) (f g : string) :
  wf_slice m (selectors s) →
  0 < len (selectors s) →
  Selector (Find growcap (Find growcap m s f).1 (Find growcap m s f).2 g).1
           (Find growcap (Find growcap m s f).1 (Find growcap m s f).2 g).2
  = Selector (Find growcap m s (f +:+ " " +:+ g)).1
             (Find growcap m s (f +:+ " " +:+ g)).2.
Proof.
  intros Hwf Hlen.
  destruct (Find_elems growcap m s (f +:+ " " +:+ g) Hwf) as [Hone _].
  destruct (Find_elems growcap m s f Hwf) as [Hel1 Hwf1].
  destruct (Find growcap m s f) as [m1 s1]; simpl in *.
  destruct (Find_elems growcap m1 s1 g Hwf1) as [Hel2 _].
  unfold Selector. rewrite Hone, Hel2, Hel1.
  assert (elems_of m (selectors s) ≠ []) as Hne.
  { destruct Hwf as (arr & Harr & Hle & _).
    unfold elems_of. rewrite (lookup_total_correct _ _ _ Harr).
    intros Hnil. apply (f_equal length) in Hnil.
    rewrite length_take in Hnil. simpl in Hnil. lia. }
  rewrite !Join_snoc; try exact Hne.
  - rewrite !append_assoc. reflexivity.
  - intros Hnil. apply app_eq_nil in Hnil as [_ Hnil]. discriminate.
Qed.

End ChainFacts.

(** * Further properties of the operations *)

Lemma count_cons (kind : call → bool) (c : call) (tr : list call) :
  count kind (c :: tr) = (if kind c then 1 else 0) + count kind tr.
Proof.
  unfold count. rewrite filter_cons.
  destruct (kind c); case_decide; simpl; congruence.
Qed.

Lemma count_any_call (tr : list call) : count any_call tr = length tr.
Proof.
  induction tr as [|c tr IH]; [reflexivity|].
  rewrite count_cons, IH. reflexivity.
Qed.

Lemma calls_all_bind {A B} (P : call → Prop) (p : prog A) (f : A → prog B) :
  calls_all P p → (∀ a, calls_all P (f a)) → calls_all P (bind p f).
Proof.
  intros Hp Hf. induction p as [a| |c k IH]; simpl in *; auto.
  destruct Hp as [Hc Hk]. split; [exact Hc|]. intros r. apply IH, Hk.
Qed.

Lemma calls_all_run {W A} (h : handler W) (P : call → Prop) (p : prog A) (w : W) :
  calls_all P p → Forall P (run h p w).2.
Proof.
  revert w. induction p as [a| |c k IH]; simpl; intros w Hp.
  - constructor.
  - constructor.
  - destruct Hp as [Hc Hk]. destruct (h c w) as [r w1].
    specialize (IH r w1 (Hk r)).
    destruct (run h (k r) w1) as [[o w2] tr]. simpl in *.
    constructor; assumption.
Qed.

Lemma max_calls_mono {A} (kind : call → bool) (p : prog A) (n n' : nat) :
  n ≤ n' → max_calls kind n p → max_calls kind n' p.
Proof.
  revert n n'. induction p as [a| |c k IH]; simpl; intros n n' Hle Hp; auto.
  destruct (kind c).
  - destruct n as [|n]; [destruct Hp|].
    destruct n' as [|n']; [lia|].
    intros r. apply (IH r n n'); [lia | apply Hp].
  - intros r. apply (IH r n n'); [lia | apply Hp].
Qed.

Lemma max_calls_bind {A B} (kind : call → bool) (n : nat) (p : prog A)
    (f : A → prog B) :
  max_calls kind n p → (∀ a, max_calls kind 0 (f a)) → max_calls kind n (bind p f).
Proof.
  revert n. induction p as [a| |c k IH]; simpl; intros n Hp Hf; auto.
  - apply (max_calls_mono kind _ 0 n); [lia | apply Hf].
  - destruct (kind c).
    + destruct n as [|n]; [destruct Hp|]. intros r. apply IH; [apply Hp | exact Hf].
    + intros r. apply IH; [apply Hp | exact Hf].
Qed.

Lemma max_calls_run {W A} (h : handler W) (kind : call → bool) (n : nat)
    (p : prog A) (w : W) :
  max_calls kind n p → count kind (run h p w).2 ≤ n.
Proof.
  revert n w. induction p as [a| |c k IH]; simpl; intros n w Hp.
  - unfold count. simpl. lia.
  - unfold count. simpl. lia.
  - destruct (h c w) as [r w1].
    destruct (kind c) eqn:Hkind.
    + destruct n as [|n]; [destruct Hp|].
      specialize (IH r n w1 (Hp r)).
      destruct (run h (k r) w1) as [[o w2] tr]. simpl in *.
      rewrite count_cons, Hkind. lia.
    + specialize (IH r n w1 (Hp r)).
      destruct (run h (k r) w1) as [[o w2] tr]. simpl in *.
      rewrite count_cons, Hkind. lia.
Qed.

(** Walk through an operation whatever the collaborators answer. *)
Ltac walk :=
  repeat first
    [ progress cbn
    | match goal with
      | |- True => exact I
      | |- _ ∧ _ => split
      | |- ∀ r : list Element * _, _ => intros [[|? [|? ?]] [?|]]
      | |- ∀ r : _ * _, _ => intros [? [?|]]
      | |- ∀ r : error, _ => intros [?|]
      | |- context [decide ?P] => destruct (decide P)
      end ].

Section MoreRuns.

Context {W : Type}.
Variable h : handler W.
Variable m : mem.
Variable s : selection.

Local Abbreviation path := (Selector m s).
Local Abbreviation resolve := (GetElements (sel_driver s) (Selector m s)).

Lemma Select_range_calls (P : call → Prop) (text : string) (elements : list Element) :
  (∀ e, e ∈ elements → P (EGetText e) ∧ P (EClick e)) →
  calls_all P (Select_range m s text elements).
Proof.
  induction elements as [|element rest IH]; intros HP; simpl; [exact I|].
  unfold call_. cbn.
  destruct (HP element (list_elem_of_here _ _)) as [Htext Hclick].
  split; [exact Htext|]. intros [elementText [cause|]]; cbn; [exact I|].
  case_decide; cbn.
  - split; [exact Hclick|]. intros [cause|]; exact I.
  - apply IH. intros e He. apply HP. apply list_elem_of_further, He.
Qed.

Lemma Select_range_max_clicks (text : string) (elements : list Element) :
  max_calls is_click 1 (Select_range m s text elements).
Proof.
  induction elements as [|element rest IH]; simpl; [exact I|].
  intros [elementText [cause|]]; cbn; [exact I|].
  case_decide; cbn; [|exact IH]. intros [cause|]; exact I.
Qed.

Lemma Select_range_max_calls (text : string) (elements : list Element) :
  max_calls any_call (length elements + 1) (Select_range m s text elements).
Proof.
  induction elements as [|element rest IH]; simpl; [exact I|].
  intros [elementText [cause|]]; cbn; [exact I|].
  case_decide; cbn; [|exact IH].
  rewrite Nat.add_1_r. intros [cause|]; exact I.
Qed.


(** The first call of an operation is the resolution of its selector,
    and no later call is a resolution. *)
Lemma perform_resolves_first (op : operation) :
  ∃ k, perform op m s
         = Call (GetElements (sel_driver s) (resolved_selector op m s)) k
       ∧ ∀ r, calls_all (λ c, is_resolution c = false) (k r).
Proof.
  destruct op; (eexists; split; [reflexivity|]);
    try (open_ops; walk; reflexivity).
  intros [elements [cause|]]; cbn; [exact I|].
  apply calls_all_bind; [|intros a; exact I].
  apply Select_range_calls. intros e _. split; reflexivity.
Qed.

(** X9: every operation asks the driver to resolve exactly once, before
    anything else: the rendered path, or for [Select] the rendered path
    followed by " option".  Nothing is resolved again and nothing is
    retried, whatever the collaborators answer. *)
Theorem resolves_once_and_first (op : operation) (w : W) :
  ∃ tr, (run h (perform op m s) w).2
          = GetElements (sel_driver s) (resolved_selector op m s) :: tr
        ∧ Forall (λ c, is_resolution c = false) tr.
Proof.
  destruct (perform_resolves_first op) as (k & -> & Hk). simpl.
  destruct (h (GetElements (sel_driver s) (resolved_selector op m s)) w) as [r w1].
  pose proof (calls_all_run h _ (k r) w1 (Hk r)) as Hall.
  destruct (run h (k r) w1) as [[o w2] tr]. simpl in *.
  eauto.
Qed.

Lemma perform_read_only (op : operation) :
  read_only op = true →
  calls_all (λ c, is_action c = false) (perform op m s).
Proof.
  intros Hop. destruct op; try discriminate Hop; open_ops; walk; reflexivity.
Qed.

(** X10: [Count], [Text], [Attribute], [CSS], [Selected] and [Visible]
    only read: none of them ever clicks, clears, sets a value, submits,
    moves the pointer or double-clicks, whatever the collaborators
    answer. *)
Theorem reads_never_act (op : operation) (w : W) :
  read_only op = true →
  Forall (λ c, is_action c = false) (run h (perform op m s) w).2.
Proof.
  intros Hop. apply calls_all_run, perform_read_only, Hop.
Qed.

Lemma perform_max_clicks (op : operation) :
  max_calls is_click (click_budget op) (perform op m s).
Proof.
  destruct op; try (open_ops; walk; fail).
  unfold perform, Select, call_. cbn.
  intros [elements [cause|]]; cbn; [exact I|].
  apply max_calls_bind; [apply Select_range_max_clicks | intros a; exact I].
Qed.

(** X11: [Click], [Check], [Uncheck] and [Select] click at most once in a
    run, and no other operation ever clicks; [DoubleClick] uses the
    gesture of the driver instead. *)
Theorem at_most_one_click (op : operation) (w : W) :
  count is_click (run h (perform op m s) w).2 ≤ click_budget op.
Proof. apply max_calls_run, perform_max_clicks. Qed.

Lemma perform_max_calls (op : operation) :
  single_element op = true →
  max_calls any_call 4 (perform op m s).
Proof.
  intros Hop. destruct op; try discriminate Hop; open_ops; walk.
Qed.

(** X12: a run of a single-element operation issues at most four calls,
    whatever the collaborators answer: nothing is retried. *)
Theorem bounded_calls (op : operation) (w : W) :
  single_element op = true →
  length (run h (perform op m s) w).2 ≤ 4.
Proof.
  intros Hop. rewrite <- count_any_call.
  apply max_calls_run, perform_max_calls, Hop.
Qed.

(** X13: a run of [Select] issues at most two calls more than the driver
    resolved options: the resolution, one read per option at most, and
    one click at most. *)
Theorem Select_bounded_calls (text : string) (w w1 : W) (es : list Element)
    (err : error) :
  h (GetElements (sel_driver s) (path +:+ " option")) w = ((es, err), w1) →
  length (run h (Select m s text) w).2 ≤ length es + 2.
Proof.
  intros H. open_ops. rewrite H. destruct err as [cause|]; cbn; [lia|].
  pose proof (max_calls_run h any_call _ _ w1 (Select_range_max_calls text es)) as Hn.
  rewrite count_any_call in Hn.
  destruct (run h (Select_range m s text es) w1) as [[o w2] tr]. simpl in *. lia.
Qed.

(** X14: when the resolution itself fails, a single-element operation
    returns the zero value and the error of the driver behind the words
    that name the rendered path, and issues no further call; the elements
    that came with the error are not looked at. *)
Theorem resolution_failure_is_wrapped (op : operation) (w w1 : W)
    (es : list Element) (cause : string) :
  single_element op = true →
  h resolve w = ((es, Some cause), w1) →
  run h (perform op m s) w =
    (Done (zero_value op,
           Some ("failed to retrieve element with selector '" +:+ path +:+
                 "': " +:+ cause)), w1, [resolve]).
Proof.
  intros Hop H.
  destruct op; try discriminate Hop; open_ops; rewrite H; reflexivity.
Qed.

(** X15: when the resolution of the options fails, [Select] returns the
    error of the driver behind the words that name the rendered path (and
    not the selector of the options), and reads or clicks nothing. *)
Theorem Select_resolution_failure (text : string) (w w1 : W)
    (es : list Element) (cause : string) :
  h (GetElements (sel_driver s) (path +:+ " option")) w = ((es, Some cause), w1) →
  run h (Select m s text) w =
    (Done (Some ("failed to retrieve options for selector '" +:+ path +:+
                 "': " +:+ cause)), w1,
     [GetElements (sel_driver s) (path +:+ " option")]).
Proof.
  intros H. open_ops. rewrite H. reflexivity.
Qed.

(** X16: when reading the text of an option fails before any option
    matched, [Select] stops there: it returns the wrapped error, clicks
    nothing and does not touch the options behind it, even if one of
    them has the text. *)
Theorem Select_stops_at_unreadable_option (text : string) (w w1 w2 w3 : W)
    (before after : list Element) (o : Element) (ts : list string)
    (t cause : string) :
  h (GetElements (sel_driver s) (path +:+ " option")) w
    = (((before ++ o :: after)%list, None), w1) →
  reads h w1 before ts w2 →
  Forall (λ t, t ≠ text) ts →
  h (EGetText o) w2 = ((t, Some cause), w3) →
  run h (Select m s text) w =
    (Done (Some ("failed to retrieve option text for selector '" +:+ path +:+
                 "': " +:+ cause)), w3,
     GetElements (sel_driver s) (path +:+ " option")
       :: (map EGetText before ++ [EGetText o])%list).
Proof.
  intros H Hreads Hts Htext. open_ops. answer H.
  rewrite (Select_range_skips h m s text before (o :: after) ts w1 w2 Hreads Hts).
  simpl. unfold call_. cbn. answer Htext. reflexivity.
Qed.

(** X17: when the click on the first matching option fails, [Select]
    returns an error that names the text of the option, the rendered path
    and the cause, and does not try a later option with the same text. *)
Theorem Select_click_failure (text : string) (w w1 w2 w3 w4 : W)
    (before after : list Element) (o : Element) (ts : list string)
    (cause : string) :
  h (GetElements (sel_driver s) (path +:+ " option")) w
    = (((before ++ o :: after)%list, None), w1) →
  reads h w1 before ts w2 →
  Forall (λ t, t ≠ text) ts →
  h (EGetText o) w2 = ((text, None), w3) →
  h (EClick o) w3 = (Some cause, w4) →
  ∃ msg,
    run h (Select m s text) w =
      (Done (Some msg), w4,
       GetElements (sel_driver s) (path +:+ " option")
         :: (map EGetText before ++ [EGetText o; EClick o])%list)
    ∧ msg = "failed to click on option with text " +:+ dquote +:+ text +:+
            dquote +:+ " for selector '" +:+ path +:+ "': " +:+ cause
    ∧ contains text msg ∧ contains path msg ∧ contains cause msg.
Proof.
  intros H Hreads Hts Htext Hclick. eexists. split; [|split; [reflexivity|]].
  - open_ops. answer H.
    rewrite (Select_range_skips h m s text before (o :: after) ts w1 w2 Hreads Hts).
    simpl. unfold call_. cbn. answer Htext. answer Hclick. reflexivity.
  - split_and!; eauto 12 with selection.
Qed.

(** X18: [Click], [Submit], [Text], [Attribute], [CSS], [Selected] and
    [Visible] on one resolved element: when their primitive fails they
    return the zero value and an error that contains the rendered path
    and the cause, after exactly the resolution and the primitive. *)
Theorem primitive_failure_is_wrapped (op : operation) (w w1 : W) (e : Element)
    (cause : string) :
  single_primitive op = true →
  h resolve w = (([e], None), w1) →
  resp_error (h (first_primitive op s e) w1).1 = Some cause →
  ∃ msg,
    run h (perform op m s) w =
      (Done (zero_value op, Some msg), (h (first_primitive op s e) w1).2,
       [resolve; first_primitive op s e])
    ∧ contains path msg ∧ contains cause msg.
Proof.
  intros Hop H Hfail.
  destruct op; try discriminate Hop; cbn in Hfail |- *; open_ops; answer H;
    match goal with
    | |- context [h ?c w1] => destruct (h c w1) as [r w2]
    end;
    cbn in Hfail |- *; try destruct r as [v err]; cbn in Hfail; subst;
    (eexists; split; [reflexivity|]); split; eauto 8 with selection.
Qed.

(** X19: the same seven operations, when their primitive succeeds: they
    return what the primitive returned (nothing, the string, the
    boolean) and no error, after exactly the resolution and the
    primitive; [Attribute] and [CSS] ask for the very name they were
    given. *)
Theorem primitive_value_is_relayed (op : operation) (w w1 : W) (e : Element) :
  single_primitive op = true →
  h resolve w = (([e], None), w1) →
  resp_error (h (first_primitive op s e) w1).1 = None →
  run h (perform op m s) w =
    (Done (resp_value (h (first_primitive op s e) w1).1, None),
     (h (first_primitive op s e) w1).2,
     [resolve; first_primitive op s e]).
Proof.
  intros Hop H Hok.
  destruct op; try discriminate Hop; cbn in Hok |- *; open_ops; answer H;
    match goal with
    | |- context [h ?c w1] => destruct (h c w1) as [r w2]
    end;
    cbn in Hok |- *; try destruct r as [v err]; cbn in Hok; subst;
    reflexivity.
Qed.



(** X21: [Select] reads and clicks nothing but options that the
    resolution returned. *)
Theorem Select_touches_only_options (text : string) (w w1 : W)
    (es : list Element) (err : error) :
  h (GetElements (sel_driver s) (path +:+ " option")) w = ((es, err), w1) →
  Forall (λ c, ∀ e, target c = Some e → e ∈ es) (run h (Select m s text) w).2.
Proof.
  intros H. open_ops. rewrite H.
  destruct err as [cause|]; cbn.
  - constructor; [discriminate | constructor].
  - assert (calls_all (λ c, ∀ e, target c = Some e → e ∈ es)
              (Select_range m s text es)) as Hk.
    { apply Select_range_calls. intros e He.
      split; intros e' [= <-]; exact He. }
    pose proof (calls_all_run h _ _ w1 Hk) as Hall.
    destruct (run h (Select_range m s text es) w1) as [[o w2] tr]. simpl in *.
    constructor; [discriminate | exact Hall].
Qed.


(** X23: [Check] and [Uncheck] on one resolved element whose attribute
    "type" cannot be read return the wrapped error without reading the
    state; on a checkbox whose state cannot be read they return the
    wrapped error; neither run holds a click. *)
Theorem setChecked_read_failures (checked : bool) (w w1 w2 : W) (e : Element)
    (cause : string) :
  h resolve w = (([e], None), w1) →
  (∀ elementType, h (EGetAttribute e "type") w1 = ((elementType, Some cause), w2) →
     run h (setChecked m s checked) w =
       (Done (Some ("failed to retrieve type of selector '" +:+ path +:+
                    "': " +:+ cause)), w2,
        [resolve; EGetAttribute e "type"]))
  ∧ (∀ selected w3, h (EGetAttribute e "type") w1 = (("checkbox", None), w2) →
       h (EIsSelected e) w2 = ((selected, Some cause), w3) →
       run h (setChecked m s checked) w =
         (Done (Some ("failed to retrieve state of selector '" +:+ path +:+
                      "': " +:+ cause)), w3,
          [resolve; EGetAttribute e "type"; EIsSelected e])).
Proof.
  intros H. split.
  - intros elementType Htype. open_ops. answer H. answer Htype. reflexivity.
  - intros selected w3 Htype Hsel. open_ops. answer H. answer Htype.
    answer Hsel. reflexivity.
Qed.

End MoreRuns.

(** ** Selections with the same rendered path *)

Lemma Select_range_same_path (m m' : mem) (s s' : selection) (text : string)
    (elements : list Element) :
  Selector m s = Selector m' s' →
  Select_range m s text elements = Select_range m' s' text elements.
Proof.
  intros Hp. induction elements as [|element rest IH]; simpl.
  - rewrite Hp. reflexivity.
  - rewrite IH, Hp. reflexivity.
Qed.

(** X24: an operation depends on its selection through the driver and
    the rendered path alone: on two selections of one driver that render
    the same path, in whatever stores, every operation issues the same
    calls and returns the same value and the same error, against any
    collaborators. *)
Theorem same_path_same_run {W} (h : handler W) (op : operation) (m m' : mem)
    (s s' : selection) (w : W) :
  sel_driver s = sel_driver s' →
  Selector m s = Selector m' s' →
  run h (perform op m s) w = run h (perform op m' s') w.
Proof.
  intros Hd Hp.
  destruct op;
    try (unfold perform, Check, Uncheck, setChecked, Click, DoubleClick, Fill,
           Text, Attribute, CSS, Selected, Visible, Submit, Count,
           getSingleElement;
         rewrite ?Hd, ?Hp; reflexivity).
  unfold perform, Select, call_. cbn. rewrite Hd, Hp.
  destruct (h (GetElements (sel_driver s') (Selector m' s' +:+ " option")) w)
    as [[elements [cause|]] w1]; cbn; [reflexivity|].
  rewrite (Select_range_same_path m m' s s' text elements Hp). reflexivity.
Qed.

(** ** Operations on a chain *)

Lemma chain_elems (growcap : nat → nat → nat) (m : mem) (d : driver)
    (f1 : string) (fs : list string) :
  elems_of (Find_all growcap (New m d f1).1 (New m d f1).2 fs).1
           (selectors (Find_all growcap (New m d f1).1 (New m d f1).2 fs).2)
    = f1 :: fs
  ∧ sel_driver (Find_all growcap (New m d f1).1 (New m d f1).2 fs).2 = d.
Proof.
  rewrite Find_all_driver. unfold New.
  destruct (literal1_elems m f1) as [Hel Hwf].
  destruct (literal1 m f1) as [m1 sl1]; simpl in *.
  rewrite Find_all_elems by exact Hwf.
  simpl. rewrite Hel. auto.
Qed.

(** X25: every operation on a selection built from [New(d, f1)] by
    [Find] with each of [fs] first asks the driver [d] of the root to
    resolve the fragments joined by single spaces ([Select]: followed by
    " option"). *)
Theorem chain_resolves_joined_path {W} (h : handler W)
    (growcap : nat → nat → nat) (m : mem) (d : driver) (f1 : string)
    (fs : list string) (op : operation) (w : W) :
  ∃ tr,
    (run h (perform op (Find_all growcap (New m d f1).1 (New m d f1).2 fs).1
                       (Find_all growcap (New m d f1).1 (New m d f1).2 fs).2) w).2
    = GetElements d
        (match op with
         | OpSelect _ => Join (f1 :: fs) " " +:+ " option"
         | _ => Join (f1 :: fs) " "
         end) :: tr.
Proof.
  destruct (chain_elems growcap m d f1 fs) as [Hel Hd].
  destruct (Find_all growcap (New m d f1).1 (New m d f1).2 fs) as [mn sn].
  simpl in *.
  destruct (perform_resolves_first mn sn op) as (k & -> & _). simpl.
  destruct (h _ w) as [r w1]. destruct (run h (k r) w1) as [[o w2] tr].
  exists tr. simpl. rewrite Hd. unfold resolved_selector, Selector.
  rewrite Hel. destruct op; reflexivity.
Qed.

(** ** The further properties at concrete stores and pages *)

Lemma sample_wf : wf_slice sample.1 (selectors sample.2).
Proof. exists ["form"; "input"]. vm_compute. auto. Defined.

Lemma spare_wf :
  wf_slice spare.1.1 (selectors spare.1.2) ∧ wf_slice spare.1.1 (selectors spare.2).
Proof. split; exists ["a"; "b"; "c"; "d"]; vm_compute; auto with arith. Defined.

Lemma Find_extends_path_witness :
  Selector (Find go_growcap sample.1 sample.2 "a[href]").1
           (Find go_growcap sample.1 sample.2 "a[href]").2
    = "form input a[href]".
Proof.
  apply (Find_extends_path go_growcap sample.1 sample.2 "a[href]" sample_wf).
  vm_compute. lia.
Defined.

Lemma Find_keeps_unrelated_witness :
  Selector (Find go_growcap spare.1.1 spare.2 "x").1 spare.1.2 = "a b c".
Proof.
  apply (Find_keeps_unrelated go_growcap spare.1.1 spare.2 spare.1.2 "x"
           (proj1 spare_wf)).
  right. vm_compute. lia.
Defined.


Lemma Find_with_spare_overwrites_witness :
  elems_of (Find go_growcap spare.1.1 spare.1.2 "e").1 (selectors spare.2) !! 3
    = Some "e".
Proof.
  apply (Find_with_spare_overwrites go_growcap spare.1.1 spare.1.2 spare.2 "e"
           (proj2 spare_wf)).
  - reflexivity.
  - vm_compute. lia.
  - vm_compute. lia.
Defined.

Lemma Find_twice_as_one_witness :
  Selector
    (Find go_growcap (Find go_growcap sample.1 sample.2 "ul").1
       (Find go_growcap sample.1 sample.2 "ul").2 "li").1
    (Find go_growcap (Find go_growcap sample.1 sample.2 "ul").1
       (Find go_growcap sample.1 sample.2 "ul").2 "li").2
  = Selector (Find go_growcap sample.1 sample.2 "ul li").1
             (Find go_growcap sample.1 sample.2 "ul li").2.
Proof.
  apply (Find_twice_as_one go_growcap sample.1 sample.2 "ul" "li" sample_wf).
  vm_compute. lia.
Defined.

Lemma reads_never_act_witness :
  Forall (λ c, is_action c = false)
    (run (stub_handler (page [Handle 7] abb_text false willing))
         (perform OpText sample.1 sample.2) 0).2.
Proof.
  apply (reads_never_act (stub_handler (page [Handle 7] abb_text false willing))
           sample.1 sample.2 OpText 0).
  reflexivity.
Defined.

Lemma bounded_calls_witness :
  length (run (stub_handler (page [Handle 7] abb_text false willing))
              (perform OpCheck sample.1 sample.2) 0).2 ≤ 4.
Proof.
  apply (bounded_calls (stub_handler (page [Handle 7] abb_text false willing))
           sample.1 sample.2 OpCheck 0).
  reflexivity.
Defined.

Lemma Select_bounded_calls_witness :
  length (run (stub_handler (page abb abb_text false willing))
              (Select sample.1 sample.2 "Z") 0).2 ≤ 3 + 2.
Proof.
  apply (Select_bounded_calls (stub_handler (page abb abb_text false willing))
           sample.1 sample.2 "Z" 0 1 abb None).
  reflexivity.
Defined.

Lemma resolution_failure_is_wrapped_witness :
  run (stub_handler (unreachable "connection refused"))
      (perform OpSelected sample.1 sample.2) 0
    = (Done (BoolValue false,
             Some "failed to retrieve element with selector 'form input': connection refused"),
       1, [GetElements 0 "form input"]).
Proof.
  apply (resolution_failure_is_wrapped (stub_handler (unreachable "connection refused"))
           sample.1 sample.2 OpSelected 0 1 [] "connection refused");
    reflexivity.
Defined.

Lemma Select_resolution_failure_witness :
  run (stub_handler (unreachable "connection refused"))
      (Select sample.1 sample.2 "B") 0
    = (Done (Some "failed to retrieve options for selector 'form input': connection refused"),
       1, [GetElements 0 "form input option"]).
Proof.
  apply (Select_resolution_failure (stub_handler (unreachable "connection refused"))
           sample.1 sample.2 "B" 0 1 [] "connection refused").
  reflexivity.
Defined.

Lemma Select_stops_at_unreadable_option_witness :
  run (stub_handler (broken abb)) (Select sample.1 sample.2 "B") 0
    = (Done (Some "failed to retrieve option text for selector 'form input': stale element"),
       2, [GetElements 0 "form input option"; EGetText (Handle 0)]).
Proof.
  apply (Select_stops_at_unreadable_option (stub_handler (broken abb))
           sample.1 sample.2 "B" 0 1 1 2 [] [Handle 1; Handle 2] (Handle 0) []
           EmptyString "stale element").
  - reflexivity.
  - apply reads_nil.
  - apply Forall_nil_2.
  - reflexivity.
Defined.

Lemma Select_click_failure_witness :
  ∃ msg,
    run (stub_handler (page abb abb_text false stale))
        (Select sample.1 sample.2 "B") 0
      = (Done (Some msg), 4,
         [GetElements 0 "form input option"; EGetText (Handle 0);
          EGetText (Handle 1); EClick (Handle 1)])
    ∧ msg = "failed to click on option with text " +:+ dquote +:+ "B" +:+
            dquote +:+ " for selector 'form input': stale element"
    ∧ contains "B" msg ∧ contains "form input" msg
    ∧ contains "stale element" msg.
Proof.
  apply (Select_click_failure (stub_handler (page abb abb_text false stale))
           sample.1 sample.2 "B" 0 1 2 3 4 [Handle 0] [Handle 2] (Handle 1)
           ["A"] "stale element").
  - reflexivity.
  - apply (reads_cons _ 1 2 2 (Handle 0) "A" [] [] eq_refl). apply reads_nil.
  - apply Forall_cons. split; [discriminate | apply Forall_nil_2].
  - reflexivity.
  - reflexivity.
Defined.

Lemma primitive_failure_is_wrapped_witness :
  ∃ msg,
    run (stub_handler (broken [Handle 7])) (perform OpText sample.1 sample.2) 0
      = (Done (StringValue EmptyString, Some msg), 2,
         [GetElements 0 "form input"; EGetText (Handle 7)])
    ∧ contains "form input" msg ∧ contains "stale element" msg.
Proof.
  apply (primitive_failure_is_wrapped (stub_handler (broken [Handle 7]))
           sample.1 sample.2 OpText 0 1 (Handle 7) "stale element");
    reflexivity.
Defined.

Lemma primitive_value_is_relayed_witness :
  run (stub_handler (page [Handle 7] abb_text false willing))
      (perform (OpCSS "display") sample.1 sample.2) 0
    = (Done (StringValue "block", None), 2,
       [GetElements 0 "form input"; EGetCSS (Handle 7) "display"]).
Proof.
  apply (primitive_value_is_relayed
           (stub_handler (page [Handle 7] abb_text false willing))
           sample.1 sample.2 (OpCSS "display") 0 1 (Handle 7));
    reflexivity.
Defined.


Lemma Select_touches_only_options_witness :
  Forall (λ c, ∀ e, target c = Some e → e ∈ abb)
    (run (stub_handler (page abb abb_text false willing))
         (Select sample.1 sample.2 "B") 0).2.
Proof.
  apply (Select_touches_only_options
           (stub_handler (page abb abb_text false willing))
           sample.1 sample.2 "B" 0 1 abb None).
  reflexivity.
Defined.


Lemma setChecked_read_failures_witness :
  run (stub_handler (broken [Handle 7])) (setChecked sample.1 sample.2 true) 0
    = (Done (Some "failed to retrieve type of selector 'form input': stale element"),
       2, [GetElements 0 "form input"; EGetAttribute (Handle 7) "type"]).
Proof.
  pose proof (setChecked_read_failures (stub_handler (broken [Handle 7]))
                sample.1 sample.2 true 0 1 2 (Handle 7) "stale element" eq_refl)
    as [Htype _].
  exact (Htype EmptyString eq_refl).
Defined.

Lemma same_path_same_run_witness :
  run (stub_handler (page abb abb_text false willing))
      (perform (OpSelect "B") sample.1 sample.2) 0
    = run (stub_handler (page abb abb_text false willing))
          (perform (OpSelect "B") spaced.1 spaced.2) 0.
Proof.
  apply (same_path_same_run (stub_handler (page abb abb_text false willing))
           (OpSelect "B") sample.1 spaced.1 sample.2 spaced.2 0);
    reflexivity.
Defined.
